(** * WebTorrent Desktop, renderer process: playback session, subtitles,
      transport commands and torrent events

    A shallow embedding of [src/renderer/main.js].  The renderer keeps one
    mutable [state] object and reacts to named commands and to messages from
    the main and webtorrent processes.  Here the state is the record [World],
    every function of the source that mutates it is a function on [World],
    and everything the renderer sends out (sounds, notifications, IPC
    messages, calls to the cast module, calls of the [cb] continuation) is
    appended to [World.log] in the order the source performs it.

    The subtitle functions exist a second time, with the same loop and the
    same relabelling, as methods of a SubtitlesController; the model follows
    main.js.

    [EUpdate] stands for a call of [update ()], the redraw; what the
    redraw itself touches ([state.prev], [playing.hideControls]) is not part
    of the model.  Timestamps are left out.

    JavaScript numbers are modelled by exact rationals ([Q]).  The constants
    and results that occur on the playback-rate ladder are multiples of 0.25
    between -16 and 16, which binary64 represents and adds, doubles and
    halves without rounding. *)

From Stdlib Require Import QArith Qminmax Lqa ZArith Lia String Ascii List.
From stdpp Require Import base option list strings gmap pretty.

(** ** Comparisons on numbers, as booleans *)

Definition Qgeb (x y : Q) : bool := Qle_bool y x.
Definition Qleb (x y : Q) : bool := Qle_bool x y.
Definition Qltb (x y : Q) : bool := negb (Qle_bool y x).
Definition Qgtb (x y : Q) : bool := negb (Qle_bool x y).
Definition Qeqb (x y : Q) : bool := Qeq_bool x y.

Declare Scope js_scope.
Delimit Scope js_scope with js.
Notation "x >= y" := (Qgeb x%Q y%Q) : js_scope.
Notation "x <= y" := (Qleb x%Q y%Q) : js_scope.
Notation "x < y" := (Qltb x%Q y%Q) : js_scope.
Notation "x > y" := (Qgtb x%Q y%Q) : js_scope.
Notation "x === y" := (Qeqb x%Q y%Q) (at level 70, no associativity) : js_scope.

(** ** Data model *)

Inductive MediaType := Video | Audio | Other.
Inductive Status := StatusNew | Downloading | Seeding | Paused.
Inductive PlayStatus := Requested | Timeout.

#[global] Instance MediaType_eq_dec : EqDecision MediaType.
Proof. solve_decision. Defined.
#[global] Instance Status_eq_dec : EqDecision Status.
Proof. solve_decision. Defined.
#[global] Instance PlayStatus_eq_dec : EqDecision PlayStatus.
Proof. solve_decision. Defined.

(** A subtitle track, as built by [loadSubtitle]. *)
Module Track.
Record t := mk {
  buffer : string;
  language : string;
  label : string;
  filePath : string }.
Definition set_label (l : string) (tr : t) : t :=
  mk (buffer tr) (language tr) l (filePath tr).
End Track.

(** [state.playing.subtitles].  [selectedIndex] is [None] while no track is
    selected. *)
Module Subtitles.
Record t := mk {
  tracks : list Track.t;
  selectedIndex : option nat;
  showMenu : bool }.
Definition set_tracks (ts : list Track.t) (s : t) : t :=
  mk ts (selectedIndex s) (showMenu s).
Definition set_selectedIndex (ix : option nat) (s : t) : t :=
  mk (tracks s) ix (showMenu s).
End Subtitles.

(** [state.playing]; only the fields the modelled functions read or write. *)
Module Playing.
Record t := mk {
  infoHash : option string;
  fileIndex : option nat;
  type : option MediaType;
  location : string;
  playbackRate : Q;
  volume : Q;
  setVolume : option Q;
  jumpToTime : option Q;
  subtitles : Subtitles.t }.
Definition set_infoHash (h : option string) (p : t) : t :=
  mk h (fileIndex p) (type p) (location p) (playbackRate p) (volume p)
     (setVolume p) (jumpToTime p) (subtitles p).
Definition set_fileIndex (i : option nat) (p : t) : t :=
  mk (infoHash p) i (type p) (location p) (playbackRate p) (volume p)
     (setVolume p) (jumpToTime p) (subtitles p).
Definition set_type (ty : option MediaType) (p : t) : t :=
  mk (infoHash p) (fileIndex p) ty (location p) (playbackRate p) (volume p)
     (setVolume p) (jumpToTime p) (subtitles p).
Definition set_playbackRate (r : Q) (p : t) : t :=
  mk (infoHash p) (fileIndex p) (type p) (location p) r (volume p)
     (setVolume p) (jumpToTime p) (subtitles p).
Definition set_setVolume (v : option Q) (p : t) : t :=
  mk (infoHash p) (fileIndex p) (type p) (location p) (playbackRate p)
     (volume p) v (jumpToTime p) (subtitles p).
Definition set_jumpToTime (v : option Q) (p : t) : t :=
  mk (infoHash p) (fileIndex p) (type p) (location p) (playbackRate p)
     (volume p) (setVolume p) v (subtitles p).
Definition set_subtitles (s : Subtitles.t) (p : t) : t :=
  mk (infoHash p) (fileIndex p) (type p) (location p) (playbackRate p)
     (volume p) (setVolume p) (jumpToTime p) s.
End Playing.

(** One entry of [torrentSummary.files]. *)
Module File.
Record t := mk {
  name : string;
  path : string;
  length : Z;
  currentTime : option Q;
  duration : option Q;
  audioInfo : bool }.
End File.

(** One entry of [torrentSummary.progress.files]. *)
Module FileProgress.
Record t := mk { numPieces : nat; numPiecesPresent : nat }.
End FileProgress.

(** An entry of [state.saved.torrents].  A field that JavaScript may leave
    [undefined] is an [option]. *)
Module Torrent.
Record t := mk {
  torrentKey : option nat;
  infoHash : option string;
  status : Status;
  name : option string;
  path : option string;
  files : option (list File.t);
  progress : option (list FileProgress.t);
  defaultPlayFileIndex : option nat;
  playStatus : option PlayStatus }.
Definition set_torrentKey (k : option nat) (s : t) : t :=
  mk k (infoHash s) (status s) (name s) (path s) (files s) (progress s)
     (defaultPlayFileIndex s) (playStatus s).
Definition set_path (p : option string) (s : t) : t :=
  mk (torrentKey s) (infoHash s) (status s) (name s) p (files s) (progress s)
     (defaultPlayFileIndex s) (playStatus s).
Definition set_status (st : Status) (s : t) : t :=
  mk (torrentKey s) (infoHash s) st (name s) (path s) (files s) (progress s)
     (defaultPlayFileIndex s) (playStatus s).
Definition set_playStatus (ps : option PlayStatus) (s : t) : t :=
  mk (torrentKey s) (infoHash s) (status s) (name s) (path s) (files s)
     (progress s) (defaultPlayFileIndex s) ps.
End Torrent.

(** The argument of [getTorrentSummary]: a torrent key or an info hash. *)
Inductive TorrentId := ByKey (k : nat) | ByHash (h : string).

(** ** What the renderer sends out *)

Inductive Sound := PLAY | ERROR | DONE.

Inductive IpcMsg :=
| WtStartTorrenting (s : Torrent.t)
| WtGetAudioMetadata (infoHash : option string) (index : nat)
| WtStartServer (infoHash : option string) (index : nat)
| WtStopServer
| OnPlayerOpen
| DownloadFinished (itemPath : string).

(** The two errors [openPlayer] hands to its continuation:
    [new errors.UnplayableError()] and
    [new Error('Playback timed out. Try again.')]. *)
Inductive PlayError := UnplayableError | PlaybackTimedOut.

Inductive Effect :=
| ESound (s : Sound)
| EIpc (m : IpcMsg)
| ETelemetry (attempt : string)
| ENotification (title : string) (body : option string)
| ECastSetRate (rate : Q)
| ECastSetVolume (v : Q)
| ECallback (err : option PlayError)
| EUpdate.

(** ** Run-time state outside [state]: the timer and the [once] listener

    [openPlayer] arms one [setTimeout] and registers one
    [ipcRenderer.once] listener at a time; the closures capture the torrent
    summary (here: its position in [state.saved.torrents]) and the file
    index.  One session is pending at a time. *)

Inductive TimerState := NoTimer | Armed (ts : nat) | Fired | Cleared.

Inductive Listener :=
| OnEngineReady (ts : nat) (index : nat)
| OnServerReady (ts : nat).

#[global] Instance Listener_eq_dec : EqDecision Listener.
Proof. solve_decision. Defined.

Record World := mkWorld {
  playing : Playing.t;
  torrents : list Torrent.t;
  nextTorrentKey : nat;
  downloadPath : string;
  windowTitle : string;
  isFocused : bool;
  badge : Z;
  errors : list string;
  timer : TimerState;
  listener : option Listener;
  log : list Effect }.

Definition set_playing (p : Playing.t) (w : World) : World :=
  mkWorld p (torrents w) (nextTorrentKey w) (downloadPath w) (windowTitle w)
    (isFocused w) (badge w) (errors w) (timer w) (listener w) (log w).
Definition set_torrents (ts : list Torrent.t) (w : World) : World :=
  mkWorld (playing w) ts (nextTorrentKey w) (downloadPath w) (windowTitle w)
    (isFocused w) (badge w) (errors w) (timer w) (listener w) (log w).
Definition set_nextTorrentKey (k : nat) (w : World) : World :=
  mkWorld (playing w) (torrents w) k (downloadPath w) (windowTitle w)
    (isFocused w) (badge w) (errors w) (timer w) (listener w) (log w).
Definition set_windowTitle (s : string) (w : World) : World :=
  mkWorld (playing w) (torrents w) (nextTorrentKey w) (downloadPath w) s
    (isFocused w) (badge w) (errors w) (timer w) (listener w) (log w).
Definition set_badge (b : Z) (w : World) : World :=
  mkWorld (playing w) (torrents w) (nextTorrentKey w) (downloadPath w)
    (windowTitle w) (isFocused w) b (errors w) (timer w) (listener w) (log w).
Definition set_errors (es : list string) (w : World) : World :=
  mkWorld (playing w) (torrents w) (nextTorrentKey w) (downloadPath w)
    (windowTitle w) (isFocused w) (badge w) es (timer w) (listener w) (log w).
Definition set_timer (t : TimerState) (w : World) : World :=
  mkWorld (playing w) (torrents w) (nextTorrentKey w) (downloadPath w)
    (windowTitle w) (isFocused w) (badge w) (errors w) t (listener w) (log w).
Definition set_listener (l : option Listener) (w : World) : World :=
  mkWorld (playing w) (torrents w) (nextTorrentKey w) (downloadPath w)
    (windowTitle w) (isFocused w) (badge w) (errors w) (timer w) l (log w).
Definition set_log (l : list Effect) (w : World) : World :=
  mkWorld (playing w) (torrents w) (nextTorrentKey w) (downloadPath w)
    (windowTitle w) (isFocused w) (badge w) (errors w) (timer w) (listener w) l.

(** Append one effect to the log. *)
Definition emit (e : Effect) (w : World) : World := set_log (log w ++ [e]) w.

(** In-place mutation of the summary at position [ts]. *)
Definition update_torrent (ts : nat) (f : Torrent.t -> Torrent.t) (w : World) : World :=
  set_torrents (alter f ts (torrents w)) w.

(** ** Code that may throw

    A handler either returns or throws a [TypeError] (reading a property of
    [undefined]); the mutations made before the throw stay. *)

Inductive Res (A : Type) :=
| Ret (a : A) (w : World)
| Throw (w : World).
Arguments Ret {A} a w.
Arguments Throw {A} w.

Definition Eff (A : Type) : Type := World -> Res A.

Definition ret {A} (a : A) : Eff A := fun w => Ret a w.
Definition throw {A} : Eff A := fun w => Throw w.
Definition bind {A B} (m : Eff A) (k : A -> Eff B) : Eff B :=
  fun w => match m w with
           | Ret a w' => k a w'
           | Throw w' => Throw w'
           end.
Definition modify (f : World -> World) : Eff unit := fun w => Ret tt (f w).
Definition gets {A} (f : World -> A) : Eff A := fun w => Ret (f w) w.
Definition defined {A} (o : option A) : Eff A :=
  match o with Some a => ret a | None => throw end.

Arguments ret {A} a w /.
Arguments throw {A} w /.
Arguments bind {A B} m k w /.
Arguments modify f w /.
Arguments gets {A} f w /.
Arguments defined {A} !o w /.

Notation "x <- m ;; k" := (bind m (fun x => k))
  (at level 100, m at next level, right associativity).
Notation "m ;; k" := (bind m (fun _ => k))
  (at level 100, right associativity).

Definition world_of {A} (r : Res A) : World :=
  match r with Ret _ w => w | Throw w => w end.

Fixpoint forEach {A} (f : nat -> A -> Eff unit) (i : nat) (l : list A) : Eff unit :=
  match l with
  | [] => ret tt
  | x :: rest => f i x ;; forEach f (S i) rest
  end.

(** ** Collaborators

    Modules of the repository that are not part of the modelled file
    ([lib/torrent-player], [lib/torrent-summary], [lib/state], [lib/cast]),
    npm and Node libraries ([path], [iso-639-1], [languagedetect],
    [srt-to-vtt]) and the browser ([navigator.language]) are parameters. *)

Record Vtt := mkVtt {
  base64 : string;
  detected : list (string * Q) }.

Record Host := mkHost {
  isVideo : File.t -> bool;
  isAudio : File.t -> bool;
  getByKey : list Torrent.t -> TorrentId -> option nat;
  getPlaying : list Torrent.t -> option string -> option nat;
  Cast_isCasting : Playing.t -> bool;
  Cast_setRate : Playing.t -> Q -> bool;
  iso639_getCode : string -> string;
  navigator_language : string;
  readVtt : string -> option Vtt;
  path_join : string -> string -> string;
  path_dirname : string -> string;
  path_extname : string -> string }.

(** ** The renderer's functions *)

Section Renderer.

Variable host : Host.

(** [onError]: sound, a queued error entry (the timestamp is left out) and
    a redraw. *)
Definition onError (message : string) (w : World) : World :=
  let w := emit (ESound ERROR) w in
  let w := set_errors (errors w ++ [message]) w in
  emit EUpdate w.

(** *** Transport commands *)

(** [isCasting] of main.js: connected to a remote target. *)
Definition isCasting (w : World) : bool :=
  let location := Playing.location (playing w) in
  String.eqb location "chromecast" || String.eqb location "airplay"
  || String.eqb location "dlna".

(** The branches of [changePlaybackRate] that compute the new rate. *)
Definition stepRate (direction : Z) (rate : Q) : Q :=
  if (direction >? 0)%Z && (rate >= 0.25)%js && (rate < 2)%js then
    (rate + 0.25)%Q
  else if (direction <? 0)%Z && (rate > 0.25)%js && (rate <= 2)%js then
    (rate - 0.25)%Q
  else if (direction <? 0)%Z && (rate === 0.25)%js then
    (-1)%Q
  else if (direction >? 0)%Z && (rate === -1)%js then
    0.25%Q
  else if ((direction >? 0)%Z && (rate >= 1)%js && (rate < 16)%js)
          || ((direction <? 0)%Z && (rate > -16)%js && (rate <= -1)%js) then
    (rate * 2)%Q
  else if ((direction <? 0)%Z && (rate > 1)%js && (rate <= 16)%js)
          || ((direction >? 0)%Z && (rate >= -16)%js && (rate < -1)%js) then
    (rate / 2)%Q
  else rate.

Definition changePlaybackRate (direction : Z) (w : World) : World :=
  let rate := stepRate direction (Playing.playbackRate (playing w)) in
  let w := set_playing (Playing.set_playbackRate rate (playing w)) w in
  if Cast_isCasting host (playing w) then
    let accepted := Cast_setRate host (playing w) rate in
    let w := emit (ECastSetRate rate) w in
    if negb accepted then
      set_playing (Playing.set_playbackRate 1%Q (playing w)) w
    else w
  else w.

Definition setVolume (volume : Q) (w : World) : World :=
  let volume := Qmax 0 (Qmin 1 volume) in
  if isCasting w then emit (ECastSetVolume volume) w
  else set_playing (Playing.set_setVolume (Some volume) (playing w)) w.

Definition changeVolume (delta : Q) (w : World) : World :=
  setVolume (Playing.volume (playing w) + delta)%Q w.

(** *** Subtitles *)

(** ASCII case conversion, for [toUpperCase] and [toLowerCase] on the
    names that occur here (language names, file extensions). *)
Definition upper (c : ascii) : ascii :=
  let n := nat_of_ascii c in
  if (97 <=? n)%nat && (n <=? 122)%nat then ascii_of_nat (n - 32) else c.
Definition lower (c : ascii) : ascii :=
  let n := nat_of_ascii c in
  if (65 <=? n)%nat && (n <=? 90)%nat then ascii_of_nat (n + 32) else c.
Fixpoint toLowerCase (s : string) : string :=
  match s with
  | EmptyString => EmptyString
  | String c rest => String (lower c) (toLowerCase rest)
  end.

(** [s.slice(0, 1).toUpperCase() + s.slice(1)] *)
Definition capitalize (s : string) : string :=
  match s with
  | EmptyString => EmptyString
  | String c rest => String (upper c) rest
  end.

(** [s.split('-')[0]] *)
Fixpoint beforeDash (s : string) : string :=
  match s with
  | EmptyString => EmptyString
  | String c rest => if Ascii.eqb c "-" then EmptyString else String c (beforeDash rest)
  end.

Definition isSystemLanguage (language : string) : bool :=
  let osLangISO := beforeDash (navigator_language host) in
  let langIso := iso639_getCode host language in
  String.eqb langIso osLangISO.

Definition isSubtitle (name : string) : bool :=
  let ext := toLowerCase (path_extname host name) in
  String.eqb ext ".srt" || String.eqb ext ".vtt".

(** [loadSubtitle (file, cb)].  The result is the track handed to [cb], or
    [None] when [cb] is not called: on a read or parse error the function
    reports through [onError] and returns without calling [cb]. *)
Definition loadSubtitle (filePath : string) (w : World) : World * option Track.t :=
  match readVtt host filePath with
  | None => (onError "Error parsing subtitles file." w, None)
  | Some buf =>
      let langDetected :=
        match detected buf with
        | [] => "subtitle"
        | (lang, _) :: _ => lang
        end in
      let langDetected := capitalize langDetected in
      (w, Some (Track.mk ("data:text/vtt;base64," +:+ base64 buf)
                         langDetected langDetected filePath))
  end.

(** [parallel (tasks, callback)] of run-parallel, for tasks that never pass
    an error: the callback gets the results in task order once every task
    has called back, and is never called when some task does not call
    back.  The tasks complete in any order; their only effect is the report
    of a failure, the same for every task, so the reports are made in task
    order here. *)
Fixpoint parallel (tasks : list (World -> World * option Track.t)) (w : World)
  : World * option (list Track.t) :=
  match tasks with
  | [] => (w, Some [])
  | task :: rest =>
      let '(w, r) := task w in
      let '(w, rs) := parallel rest w in
      (w, match r, rs with
          | Some track, Some tracks => Some (track :: tracks)
          | _, _ => None
          end)
  end.

(** [relabelSubtitles]: the [forEach] over the tracks.  [counts] is a fresh
    object used as a map from language names to numbers; the names are
    those of languagedetect or "subtitle", capitalised, and none of them is
    a property an object inherits.  [pretty] prints a number in decimal, as
    the string concatenation does. *)
Fixpoint relabel (counts : gmap string nat) (tracks : list Track.t) : list Track.t :=
  match tracks with
  | [] => []
  | track :: rest =>
      let lang := Track.language track in
      let n := (default 0 (counts !! lang) + 1)%nat in
      let counts := <[lang := n]> counts in
      Track.set_label (if (1 <? n)%nat then lang +:+ " " +:+ pretty n else lang) track
      :: relabel counts rest
  end.

Definition relabelSubtitles (s : Subtitles.t) : Subtitles.t :=
  Subtitles.set_tracks (relabel ∅ (Subtitles.tracks s)) s.

(** The [for] loop of the [parallel] callback in [addSubtitles], from
    index [i] on. *)
Fixpoint addTracks (autoSelect : bool) (i : nat) (tracks : list Track.t)
  (s : Subtitles.t) : Subtitles.t :=
  match tracks with
  | [] => s
  | track :: rest =>
      if existsb (fun t => String.eqb (Track.filePath track) (Track.filePath t))
                 (Subtitles.tracks s)
      then addTracks autoSelect (S i) rest s
      else
        let s := Subtitles.set_tracks (Subtitles.tracks s ++ [track]) s in
        let s :=
          if autoSelect && ((i =? 0)%nat || isSystemLanguage (Track.language track))
          then Subtitles.set_selectedIndex
                 (Some (List.length (Subtitles.tracks s) - 1)%nat) s
          else s in
        addTracks autoSelect (S i) rest s
  end.

Definition addSubtitles (files : list string) (autoSelect : bool) (w : World) : World :=
  if negb (bool_decide (Playing.type (playing w) = Some Video)) then w
  else if (List.length files =? 0)%nat then w
  else
    let tasks := map loadSubtitle files in
    match parallel tasks w with
    | (w, None) => w
    | (w, Some tracks) =>
        let s := addTracks autoSelect 0 tracks (Playing.subtitles (playing w)) in
        let s := relabelSubtitles s in
        set_playing (Playing.set_subtitles s (playing w)) w
    end.

(** *** Torrent events *)

(** [getTorrentSummary]: the summary object, as its position in
    [state.saved.torrents] together with its current contents. *)
Definition getTorrentSummary (id : TorrentId) (w : World) : option (nat * Torrent.t) :=
  match getByKey host (torrents w) id with
  | None => None
  | Some ts =>
      match torrents w !! ts with
      | None => None
      | Some s => Some (ts, s)
      end
  end.

(** The summary a closure holds on to. *)
Definition deref (ts : nat) : Eff Torrent.t :=
  s <- gets (fun w => torrents w !! ts) ;; defined s.

Definition getTorrentPath (torrentSummary : Torrent.t) : Eff string :=
  files <- defined (Torrent.files torrentSummary) ;;
  file0 <- defined (files !! 0%nat) ;;
  dir <- defined (Torrent.path torrentSummary) ;;
  let itemPath := path_join host dir (File.path file0) in
  ret (if (1 <? List.length files)%nat then path_dirname host itemPath else itemPath).

Definition showDoneNotification (torrent : Torrent.t) (w : World) : World :=
  let w := emit (ENotification "Download Complete" (Torrent.name torrent)) w in
  emit (ESound DONE) w.

(** [torrentInfo] is represented by its [bytesReceived]. *)
Definition torrentDone (torrentKey : TorrentId) (bytesReceived : Z) : Eff unit :=
  found <- gets (getTorrentSummary torrentKey) ;;
  found <- defined found ;;
  let ts := fst found in
  modify (update_torrent ts (Torrent.set_status Seeding)) ;;
  (if (bytesReceived >? 0)%Z then
     modify (fun w => if negb (isFocused w) then set_badge (badge w + 1)%Z w else w) ;;
     torrentSummary <- deref ts ;;
     modify (showDoneNotification torrentSummary) ;;
     itemPath <- getTorrentPath torrentSummary ;;
     modify (emit (EIpc (DownloadFinished itemPath)))
   else ret tt) ;;
  modify (emit EUpdate).

(** *** Opening the player *)

(** The files of a list, each with its position: [files.indexOf (f)] of an
    element [f] of [files] is its position, the entries of [files] being
    distinct objects. *)
Fixpoint indexedFrom (i : nat) (files : list File.t) : list (nat * File.t) :=
  match files with
  | [] => []
  | f :: rest => (i, f) :: indexedFrom (S i) rest
  end.
Definition indexed (files : list File.t) : list (nat * File.t) :=
  indexedFrom 0 files.

(** [videoFiles.reduce (function (a, b) { return a.length > b.length ? a : b })] *)
Definition largest (first : nat * File.t) (rest : list (nat * File.t)) : nat * File.t :=
  fold_left (fun a b => if (File.length (snd a) >? File.length (snd b))%Z then a else b)
            rest first.

Definition pickFileToPlay (files : list File.t) : option nat :=
  let videoFiles := List.filter (fun f => isVideo host (snd f)) (indexed files) in
  match videoFiles with
  | first :: rest => Some (fst (largest first rest))
  | [] =>
      let audioFiles := List.filter (fun f => isAudio host (snd f)) (indexed files) in
      match audioFiles with
      | first :: _ => Some (fst first)
      | [] => None
      end
  end.

Definition falsyKey (k : option nat) : bool :=
  match k with None => true | Some n => (n =? 0)%nat end.
Definition falsyString (s : option string) : bool :=
  match s with None => true | Some s => String.eqb s "" end.

Definition startTorrentingSummary (ts : nat) : Eff unit :=
  s <- deref ts ;;
  (if falsyKey (Torrent.torrentKey s) then
     k <- gets nextTorrentKey ;;
     modify (set_nextTorrentKey (S k)) ;;
     modify (update_torrent ts (Torrent.set_torrentKey (Some k)))
   else ret tt) ;;
  (if falsyString (Torrent.path s) then
     dir <- gets downloadPath ;;
     modify (update_torrent ts (Torrent.set_path (Some dir)))
   else ret tt) ;;
  s <- deref ts ;;
  modify (emit (EIpc (WtStartTorrenting s))).

Definition checkForSubtitles : Eff unit :=
  ty <- gets (fun w => Playing.type (playing w)) ;;
  if negb (bool_decide (ty = Some Video)) then ret tt
  else
    found <- gets (fun w => getPlaying host (torrents w) (Playing.infoHash (playing w))) ;;
    torrentSummary <- gets (fun w => found ≫= fun ts => torrents w !! ts) ;;
    match torrentSummary with
    | None => ret tt
    | Some torrentSummary =>
        match Torrent.progress torrentSummary with
        | None => ret tt
        | Some progressFiles =>
            forEach (fun ix fp =>
              if negb (FileProgress.numPieces fp =? FileProgress.numPiecesPresent fp)%nat
              then ret tt
              else
                files <- defined (Torrent.files torrentSummary) ;;
                file <- defined (files !! ix) ;;
                if negb (isSubtitle (File.name file)) then ret tt
                else
                  dir <- defined (Torrent.path torrentSummary) ;;
                  let filePath := path_join host dir (File.path file) in
                  modify (addSubtitles [filePath] false))
              0%nat progressFiles
        end
    end.

(** [fraction < 0.9 && secondsLeft > 10].  For a zero duration JavaScript's
    fraction is infinite; the rational quotient is 0 there, and the
    conjunction has the same value, the second test deciding. *)
Definition resumable (currentTime duration : Q) : bool :=
  let fraction := (currentTime / duration)%Q in
  let secondsLeft := (duration - currentTime)%Q in
  (fraction < 0.9)%js && (secondsLeft > 10)%js.

Definition openPlayerFromActiveTorrent (ts : nat) (index : nat) : Eff unit :=
  torrentSummary <- deref ts ;;
  files <- defined (Torrent.files torrentSummary) ;;
  let fileSummary := files !! index in
  modify (fun w => set_playing (Playing.set_infoHash (Torrent.infoHash torrentSummary) (playing w)) w) ;;
  modify (fun w => set_playing (Playing.set_fileIndex (Some index) (playing w)) w) ;;
  fileSummary <- defined fileSummary ;;
  let ty := if isVideo host fileSummary then Video
            else if isAudio host fileSummary then Audio
            else Other in
  modify (fun w => set_playing (Playing.set_type (Some ty) (playing w)) w) ;;
  match File.currentTime fileSummary, File.duration fileSummary with
  | Some currentTime, Some duration =>
      if negb (currentTime === 0)%js && resumable currentTime duration then
        modify (fun w => set_playing (Playing.set_jumpToTime (Some currentTime) (playing w)) w)
      else ret tt
  | _, _ => ret tt
  end ;;
  (if bool_decide (ty = Audio) && negb (File.audioInfo fileSummary) then
     modify (emit (EIpc (WtGetAudioMetadata (Torrent.infoHash torrentSummary) index)))
   else ret tt) ;;
  checkForSubtitles ;;
  modify (emit (EIpc (WtStartServer (Torrent.infoHash torrentSummary) index))) ;;
  modify (set_listener (Some (OnServerReady ts))).

(** [openPlayer (infoHash, index, cb)]; calls of [cb] are logged as
    [ECallback].  [torrentSummary.progress] is a progress object or
    [undefined], never the number 1, so the PLAY sound is always played. *)
Definition openPlayer (infoHash : TorrentId) (index : option nat) : Eff unit :=
  found <- gets (getTorrentSummary infoHash) ;;
  found <- defined found ;;
  let ts := fst found in
  let torrentSummary := snd found in
  let index := match index with
               | None => Torrent.defaultPlayFileIndex torrentSummary
               | Some _ => index
               end in
  index <- match index with
           | None => files <- defined (Torrent.files torrentSummary) ;;
                     ret (pickFileToPlay files)
           | Some _ => ret index
           end ;;
  match index with
  | None => modify (emit (ECallback (Some UnplayableError)))
  | Some index =>
      modify (emit (ESound PLAY)) ;;
      modify (update_torrent ts (Torrent.set_playStatus (Some Requested))) ;;
      modify (emit EUpdate) ;;
      modify (set_timer (Armed ts)) ;;
      if bool_decide (Torrent.status torrentSummary = Paused) then
        startTorrentingSummary ts ;;
        modify (set_listener (Some (OnEngineReady ts index)))
      else
        openPlayerFromActiveTorrent ts index
  end.

(** *** The events of a pending session *)

Inductive Event := EvTimeout | EvEngineReady | EvServerReady.

(** The function passed to [setTimeout] in [openPlayer]. *)
Definition onTimeout (ts : nat) : Eff unit :=
  modify (emit (ETelemetry "timeout")) ;;
  modify (update_torrent ts (Torrent.set_playStatus (Some Timeout))) ;;
  modify (emit (ESound ERROR)) ;;
  modify (emit (ECallback (Some PlaybackTimedOut))) ;;
  modify (emit EUpdate).

Definition clearTimeout (w : World) : World :=
  match timer w with
  | Armed _ => set_timer Cleared w
  | _ => w
  end.

(** The listener on ['wt-server-' + infoHash]. *)
Definition onServerReady (ts : nat) : Eff unit :=
  modify clearTimeout ;;
  torrentSummary <- deref ts ;;
  let timedOut := bool_decide (Torrent.playStatus torrentSummary = Some Timeout) in
  modify (update_torrent ts (Torrent.set_playStatus None)) ;;
  if timedOut then
    modify (emit (EIpc WtStopServer)) ;;
    modify (emit EUpdate)
  else
    files <- defined (Torrent.files torrentSummary) ;;
    fileIndex <- gets (fun w => Playing.fileIndex (playing w)) ;;
    file <- defined (fileIndex ≫= fun i => files !! i) ;;
    modify (set_windowTitle (File.name file)) ;;
    modify (emit EUpdate) ;;
    modify (emit (EIpc OnPlayerOpen)) ;;
    modify (emit (ECallback None)).

(** Delivery of an event: a timer fires once and only while armed, a
    [once] listener runs once and only while registered. *)
Definition handle (e : Event) : Eff unit :=
  fun w =>
    match e, timer w, listener w with
    | EvTimeout, Armed ts, _ => (modify (set_timer Fired) ;; onTimeout ts) w
    | EvEngineReady, _, Some (OnEngineReady ts index) =>
        (modify (set_listener None) ;; openPlayerFromActiveTorrent ts index) w
    | EvServerReady, _, Some (OnServerReady ts) =>
        (modify (set_listener None) ;; onServerReady ts) w
    | _, _, _ => Ret tt w
    end.

(** An exception thrown in a handler ends that handler only. *)
Definition deliver (w : World) (e : Event) : World := world_of (handle e w).

Definition run (events : list Event) (w : World) : World :=
  fold_left deliver events w.

End Renderer.

(** ** More of the renderer

    Functions of main.js beside the ones above, on the same state. *)

Definition set_isFocused (b : bool) (w : World) : World :=
  mkWorld (playing w) (torrents w) (nextTorrentKey w) (downloadPath w)
    (windowTitle w) b (badge w) (errors w) (timer w) (listener w) (log w).

Definition set_audioInfo (info : bool) (f : File.t) : File.t :=
  File.mk (File.name f) (File.path f) (File.length f) (File.currentTime f)
    (File.duration f) info.

Definition set_files (files : option (list File.t)) (s : Torrent.t) : Torrent.t :=
  Torrent.mk (Torrent.torrentKey s) (Torrent.infoHash s) (Torrent.status s)
    (Torrent.name s) (Torrent.path s) files (Torrent.progress s)
    (Torrent.defaultPlayFileIndex s) (Torrent.playStatus s).

(** The elements of a list, each with its position: the object references
    a [filter] hands to a [forEach]. *)
Fixpoint enumerateFrom {A} (i : nat) (l : list A) : list (nat * A) :=
  match l with
  | [] => []
  | x :: rest => (i, x) :: enumerateFrom (S i) rest
  end.

Section Commands.

Variable host : Host.

Definition selectSubtitle (ix : option nat) (w : World) : World :=
  set_playing
    (Playing.set_subtitles
       (Subtitles.set_selectedIndex ix (Playing.subtitles (playing w)))
       (playing w)) w.

Definition toggleSubtitlesMenu (w : World) : World :=
  let s := Playing.subtitles (playing w) in
  set_playing
    (Playing.set_subtitles
       (Subtitles.mk (Subtitles.tracks s) (Subtitles.selectedIndex s)
                     (negb (Subtitles.showMenu s)))
       (playing w)) w.

Definition onFocus (w : World) : World :=
  let w := set_isFocused true w in
  let w := set_badge 0 w in
  emit EUpdate w.

Definition onBlur (w : World) : World :=
  let w := set_isFocused false w in
  emit EUpdate w.

(** [torrentError (torrentKey, message)], for a message that is a string. *)
Definition torrentError (torrentKey : TorrentId) (message : string) : Eff unit :=
  let message :=
    if String.prefix "Cannot add duplicate torrent" message
    then "Cannot add duplicate torrent" else message in
  modify (onError message) ;;
  found <- gets (getTorrentSummary host torrentKey) ;;
  match found with
  | Some found =>
      modify (update_torrent (fst found) (Torrent.set_status Paused)) ;;
      modify (emit EUpdate)
  | None => ret tt
  end.

(** [torrentAudioMetadata (infoHash, index, info)]; [info] says whether the
    value stored as [audioInfo] is truthy. *)
Definition torrentAudioMetadata (infoHash : TorrentId) (index : nat) (info : bool)
  : Eff unit :=
  found <- gets (getTorrentSummary host infoHash) ;;
  found <- defined found ;;
  let ts := fst found in
  files <- defined (Torrent.files (snd found)) ;;
  _ <- defined (files !! index) ;;
  modify (update_torrent ts
            (fun s => set_files (alter (set_audioInfo info) index <$> Torrent.files s) s)) ;;
  modify (emit EUpdate).

(** [resumeTorrents]: the summaries that are not paused, in list order. *)
Definition resumeTorrents : Eff unit :=
  summaries <- gets torrents ;;
  let active :=
    List.filter (fun p => negb (bool_decide (Torrent.status (snd p) = Paused)))
                (enumerateFrom 0 summaries) in
  forEach (fun _ p => startTorrentingSummary (fst p)) 0%nat active.

End Commands.

(** ** The player page and the dock

    [play], [pause], [playPause] and [jumpToTime] read and write parts of
    [state] the functions above leave alone: [state.playing.isPaused],
    [state.location.url ()] and [state.window.isVisible]; [torrentProgress]
    writes [state.dock.progress].  A page is the world with these fields,
    and with a log of its own for the calls to lib/cast, the two player
    messages and the forced [render]. *)

Definition set_progress (p : option (list FileProgress.t)) (s : Torrent.t) : Torrent.t :=
  Torrent.mk (Torrent.torrentKey s) (Torrent.infoHash s) (Torrent.status s)
    (Torrent.name s) (Torrent.path s) (Torrent.files s) p
    (Torrent.defaultPlayFileIndex s) (Torrent.playStatus s).

Inductive Signal :=
| CastPlay
| CastPause
| CastSeek (time : Q)
| OnPlayerPlay
| OnPlayerPause
| Render.

Module Page.
Record t := mk {
  world : World;
  isPaused : bool;
  url : string;
  isVisible : bool;
  dockProgress : Q;
  signals : list Signal }.
Definition set_world (w : World) (pg : t) : t :=
  mk w (isPaused pg) (url pg) (isVisible pg) (dockProgress pg) (signals pg).
Definition set_isPaused (b : bool) (pg : t) : t :=
  mk (world pg) b (url pg) (isVisible pg) (dockProgress pg) (signals pg).
Definition set_dockProgress (p : Q) (pg : t) : t :=
  mk (world pg) (isPaused pg) (url pg) (isVisible pg) p (signals pg).
Definition send (s : Signal) (pg : t) : t :=
  mk (world pg) (isPaused pg) (url pg) (isVisible pg) (dockProgress pg)
     (signals pg ++ [s]).
End Page.

(** [progressInfo] of the engine; an entry [p] of [progressInfo.torrents]
    is its [torrentKey] and its [files]. *)
Module ProgressInfo.
Record t := mk {
  progress : Q;
  hasActiveTorrents : bool;
  torrents : list (TorrentId * list FileProgress.t) }.
End ProgressInfo.

Section PlayerPage.

Variable host : Host.

Definition play (pg : Page.t) : Page.t :=
  if negb (Page.isPaused pg) then pg
  else
    let pg := Page.set_isPaused false pg in
    let pg := if isCasting (Page.world pg) then Page.send CastPlay pg else pg in
    Page.send OnPlayerPlay pg.

Definition pause (pg : Page.t) : Page.t :=
  if Page.isPaused pg then pg
  else
    let pg := Page.set_isPaused true pg in
    let pg := if isCasting (Page.world pg) then Page.send CastPause pg else pg in
    Page.send OnPlayerPause pg.

Definition playPause (pg : Page.t) : Page.t :=
  if negb (String.eqb (Page.url pg) "player") then pg
  else
    let pg := if Page.isPaused pg then play pg else pause pg in
    if negb (Page.isVisible pg) then Page.send Render pg else pg.

Definition jumpToTime (time : Q) (pg : Page.t) : Page.t :=
  if isCasting (Page.world pg) then Page.send (CastSeek time) pg
  else
    let w := Page.world pg in
    Page.set_world (set_playing (Playing.set_jumpToTime (Some time) (playing w)) w) pg.

Definition torrentProgress (progressInfo : ProgressInfo.t) (pg : Page.t) : Page.t :=
  let progress := ProgressInfo.progress progressInfo in
  let hasActiveTorrents := ProgressInfo.hasActiveTorrents progressInfo in
  let progress :=
    if negb hasActiveTorrents || (progress === 1)%js then (-1)%Q else progress in
  let pg := Page.set_dockProgress progress pg in
  let w :=
    fold_left
      (fun w p =>
         match getTorrentSummary host (fst p) w with
         | None => w
         | Some found => update_torrent (fst found) (set_progress (Some (snd p))) w
         end)
      (ProgressInfo.torrents progressInfo) (Page.world pg) in
  Page.set_world (emit EUpdate w) pg.

End PlayerPage.

(** ** Vocabulary of the properties *)

(** The rates the rate-adjust command moves through. *)
Definition ladder : list Q :=
  [-16; -8; -4; -2; -1; 0.25; 0.5; 0.75; 1; 1.25; 1.5; 1.75; 2; 4; 8; 16]%Q.

Definition onLadder (r : Q) : Prop := Exists (Qeq r) ladder.
Definition onLadderb (r : Q) : bool := existsb (Qeq_bool r) ladder.

(** The rate stored after one rate-adjust command. *)
Definition rateAfter (host : Host) (direction : Z) (w : World) : Q :=
  Playing.playbackRate (playing (changePlaybackRate host direction w)).

(** The remote target is engaged and refuses the rate the command asks for. *)
Definition castRejects (host : Host) (direction : Z) (w : World) : bool :=
  let rate := stepRate direction (Playing.playbackRate (playing w)) in
  let p := Playing.set_playbackRate rate (playing w) in
  Cast_isCasting host p && negb (Cast_setRate host p rate).

(** A sequence of rate-adjust commands. *)
Definition adjustRate (host : Host) (directions : list Z) (w : World) : World :=
  fold_left (fun w d => changePlaybackRate host d w) directions w.

(** The volume the set-volume command applies: the value stored for the
    local media element, or the value sent to the remote target. *)
Definition clamp (v : Q) : Q := Qmax 0 (Qmin 1 v).

(** How many of the tracks are in language [lang]. *)
Definition occurrences (lang : string) (tracks : list Track.t) : nat :=
  List.length (List.filter (fun t => String.eqb (Track.language t) lang) tracks).

(** The label of the [n]th track of a language. *)
Definition labelOf (lang : string) (n : nat) : string :=
  if (n =? 1)%nat then lang else lang +:+ " " +:+ pretty n.

(** The originating file paths of the stored tracks. *)
Definition trackPaths (w : World) : list string :=
  map Track.filePath (Subtitles.tracks (Playing.subtitles (playing w))).

(** A sequence of ingest calls, each with its files and its [autoSelect]. *)
Definition ingest (host : Host) (calls : list (list string * bool)) (w : World) : World :=
  fold_left (fun w call => addSubtitles host (fst call) (snd call) w) calls w.

(** A track without its label, which relabelling rewrites. *)
Definition unlabelled (t : Track.t) : Track.t := Track.set_label "" t.

(** The files of a batch that fail to load. *)
Definition failed (host : Host) (files : list string) : list string :=
  List.filter (fun f => match readVtt host f with None => true | Some _ => false end) files.

(** The duplicate test of the ingest loop: a stored track has the file
    path of [track]. *)
Definition stored (track : Track.t) (s : Subtitles.t) : bool :=
  existsb (fun t => String.eqb (Track.filePath track) (Track.filePath t))
          (Subtitles.tracks s).

(** The "download finished" notifications among some effects. *)
Definition isNotification (e : Effect) : bool :=
  match e with ENotification _ _ => true | _ => false end.
Definition notifications (effects : list Effect) : list Effect :=
  List.filter isNotification effects.

(** The calls of the continuation among some effects. *)
Definition isCallback (e : Effect) : bool :=
  match e with ECallback _ => true | _ => false end.
Definition callbacks (effects : list Effect) : list Effect :=
  List.filter isCallback effects.


(** Effects that neither call the continuation nor open the player nor
    stop the content server. *)
Definition quiet (e : Effect) : bool :=
  match e with
  | ECallback _ | EIpc OnPlayerOpen | EIpc WtStopServer => false
  | _ => true
  end.

(** The transient play status of the summary at position [ts]. *)
Definition playStatusOf (ts : nat) (w : World) : option PlayStatus :=
  torrents w !! ts ≫= Torrent.playStatus.

(** A step of the session on [ts] that leaves the timer and the play
    status alone, at most registers the server-ready listener, and sends
    quiet effects only. *)
Definition quietStep (ts : nat) (w w' : World) : Prop :=
  timer w' = timer w /\
  playStatusOf ts w' = playStatusOf ts w /\
  (listener w' = listener w \/ listener w' = Some (OnServerReady ts)) /\
  exists extra, log w' = log w ++ extra /\ forallb quiet extra = true.

Definition preserves {A} (R : World -> World -> Prop) (m : Eff A) : Prop :=
  forall w, R w (world_of (m w)).

(** The listener slot holds nothing or a listener of the session on [ts]. *)
Definition listenerOf (ts : nat) (w : World) : Prop :=
  listener w = None \/ listener w = Some (OnServerReady ts)
  \/ exists index, listener w = Some (OnEngineReady ts index).

(** Since the log was [base], the continuation was called as [cbs] says
    and the player was not opened. *)
Definition sessionLog (base : list Effect) (cbs : list Effect) (w : World) : Prop :=
  exists new, log w = base ++ new /\ callbacks new = cbs /\ ~ In (EIpc OnPlayerOpen) new.

(** The phases of a session on [ts]: waiting with the timer armed; timed
    out, waiting for the late server-ready event; timed out with that event
    discarded. *)
Definition pending (ts : nat) (base : list Effect) (w : World) : Prop :=
  timer w = Armed ts /\ playStatusOf ts w = Some Requested /\ listenerOf ts w /\
  sessionLog base [] w.

Definition timedOut (ts : nat) (base : list Effect) (w : World) : Prop :=
  timer w = Fired /\ playStatusOf ts w = Some Timeout /\ listenerOf ts w /\
  sessionLog base [ECallback (Some PlaybackTimedOut)] w.

Definition discarded (ts : nat) (base : list Effect) (w : World) : Prop :=
  timer w = Fired /\ playStatusOf ts w = None /\ listener w = None /\
  sessionLog base [ECallback (Some PlaybackTimedOut)] w /\
  exists new, log w = base ++ new /\ In (EIpc WtStopServer) new.

(** The selection points into the track list, or there is none. *)
Definition validSelection (s : Subtitles.t) : Prop :=
  match Subtitles.selectedIndex s with
  | Some k => (k < List.length (Subtitles.tracks s))%nat
  | None => True
  end.

(** A name without a space. *)
Fixpoint spaceFree (s : string) : bool :=
  match s with
  | EmptyString => true
  | String c rest => negb (Ascii.eqb c " ") && spaceFree rest
  end.

(** What an ingest sends out: the reports of failed loads. *)
Definition subtitleNoise (e : Effect) : bool :=
  match e with
  | ESound ERROR | EUpdate => true
  | _ => false
  end.

(** The world without what an ingest may change. *)
Definition withoutSubtitles (w : World) : World :=
  set_log []
    (set_errors []
       (set_playing
          (Playing.set_subtitles (Subtitles.mk [] None false) (playing w)) w)).

(** A step that changes the subtitle state, the error queue and the log
    only, the log by reports of failed loads. *)
Definition subtitleStep (w w' : World) : Prop :=
  withoutSubtitles w' = withoutSubtitles w /\
  (exists errs, errors w' = errors w ++ errs) /\
  exists extra, log w' = log w ++ extra /\ forallb subtitleNoise extra = true.

(** A relation every run of [m] establishes, whether it returns or throws. *)
Definition stable {A} (R : World -> World -> Prop) (m : Eff A) : Prop :=
  forall w, R w (world_of (m w)).

(** The files [checkForSubtitles] offers for a summary: those with all
    pieces present and a subtitle extension, as paths on disk. *)
Definition discovered (host : Host) (dir : string)
    (progressFiles : list FileProgress.t) (files : list File.t) : list string :=
  omap (fun p =>
          if (FileProgress.numPieces (fst p) =? FileProgress.numPiecesPresent (fst p))%nat
             && isSubtitle host (File.name (snd p))
          then Some (path_join host dir (File.path (snd p)))
          else None)
       (zip progressFiles files).

(** The kind of media a file is, as [openPlayerFromActiveTorrent] decides
    it. *)
Definition mediaTypeOf (host : Host) (f : File.t) : MediaType :=
  if isVideo host f then Video else if isAudio host f then Audio else Other.

(** The file is picked up where it was left. *)
Definition resumes (f : File.t) : bool :=
  match File.currentTime f, File.duration f with
  | Some currentTime, Some duration =>
      negb (currentTime === 0)%js && resumable currentTime duration
  | _, _ => false
  end.

(** Audio metadata is asked for. *)
Definition wantsAudioInfo (host : Host) (f : File.t) : bool :=
  bool_decide (mediaTypeOf host f = Audio) && negb (File.audioInfo f).

(** The world when [openPlayerFromActiveTorrent] turns to the subtitles:
    the target is recorded, the seek target set when the file is resumed,
    the audio metadata asked for. *)
Definition prepared (host : Host) (s : Torrent.t) (index : nat) (f : File.t)
    (w : World) : World :=
  let p := Playing.set_infoHash (Torrent.infoHash s) (playing w) in
  let p := Playing.set_fileIndex (Some index) p in
  let p := Playing.set_type (Some (mediaTypeOf host f)) p in
  let p := if resumes f then Playing.set_jumpToTime (File.currentTime f) p else p in
  let w := set_playing p w in
  if wantsAudioInfo host f
  then emit (EIpc (WtGetAudioMetadata (Torrent.infoHash s) index)) w
  else w.

(** A session that is over: the timer cannot fire, no listener is
    registered, and the continuation was called at most once since the log
    was [base]. *)
Definition settled (base : list Effect) (w : World) : Prop :=
  (forall ts, timer w <> Armed ts) /\ listener w = None /\
  exists new, log w = base ++ new /\
    (callbacks new = [] \/ callbacks new = [ECallback None]
     \/ callbacks new = [ECallback (Some PlaybackTimedOut)]).

(** An item [resumeTorrents] starts. *)
Definition active (s : Torrent.t) : bool :=
  negb (bool_decide (Torrent.status s = Paused)).

(** The start messages for the active items of a list, in list order. *)
Definition startMessages (l : list Torrent.t) : list Effect :=
  map (fun s => EIpc (WtStartTorrenting s)) (List.filter active l).

(** The key of an item; 0 counts as none, as in [startTorrentingSummary]. *)
Definition keyOf (s : Torrent.t) : option nat :=
  if falsyKey (Torrent.torrentKey s) then None else Torrent.torrentKey s.

(** The keys handed out so far: the next key is not 0, every key in use is
    below it, and no two items share a key. *)
Definition keysFresh (next : nat) (l : list Torrent.t) : Prop :=
  (0 < next)%nat /\
  (forall i s k, l !! i = Some s -> keyOf s = Some k -> (k < next)%nat) /\
  (forall i j s t k, l !! i = Some s -> l !! j = Some t ->
                     keyOf s = Some k -> keyOf t = Some k -> i = j).

(** A run of completion events, each with its key and [bytesReceived];
    an event whose handler throws leaves what the handler did before. *)
Definition completions (host : Host) (ds : list (TorrentId * Z)) (w : World) : World :=
  fold_left (fun w d => world_of (torrentDone host (fst d) (snd d) w)) ds w.

(** The commands of the player page. *)
Inductive Command :=
| CmdPlay
| CmdPause
| CmdPlayPause
| CmdJump (time : Q).

Definition exec (pg : Page.t) (c : Command) : Page.t :=
  match c with
  | CmdPlay => play pg
  | CmdPause => pause pg
  | CmdPlayPause => playPause pg
  | CmdJump time => jumpToTime time pg
  end.

Definition execAll (cs : list Command) (pg : Page.t) : Page.t :=
  fold_left exec cs pg.

(** Reading a log of signals from a state that is paused or not: the state
    after the last player message, when every [OnPlayerPlay] comes in a
    paused state and every [OnPlayerPause] in a playing one. *)
Fixpoint alternates (paused : bool) (l : list Signal) : option bool :=
  match l with
  | [] => Some paused
  | OnPlayerPlay :: rest => if paused then alternates false rest else None
  | OnPlayerPause :: rest => if paused then None else alternates true rest
  | _ :: rest => alternates paused rest
  end.

Definition isCastSignal (s : Signal) : bool :=
  match s with
  | CastPlay | CastPause | CastSeek _ => true
  | _ => false
  end.

(** The cast call that goes with a player message. *)
Fixpoint castEchoes (l : list Signal) : bool :=
  match l with
  | [] => true
  | CastPlay :: OnPlayerPlay :: rest => castEchoes rest
  | CastPause :: OnPlayerPause :: rest => castEchoes rest
  | CastSeek _ :: rest => castEchoes rest
  | Render :: rest => castEchoes rest
  | _ => false
  end.

(** ** Example data *)

(** Modelled from the spec: [State.getDefaultPlayState] of [lib/state] is
    not among the sources; the default playback rate is 1, the one the rate
    commands start from.  The other fields (local output, full volume, no
    subtitle track) only serve the examples. *)
Definition defaultPlayState : Playing.t :=
  Playing.mk None None None "local" 1 1 None None (Subtitles.mk [] None false).

Definition hasSuffix (suffix s : string) : bool :=
  let n := String.length s in
  let k := String.length suffix in
  (k <=? n)%nat && String.eqb (substring (n - k) k s) suffix.

(** A host for the examples: files are classified by their extension,
    summaries are found by key or hash, no cast device answers, the locale
    is en-US, and three subtitle files can be read. *)
Definition exampleHost : Host :=
  mkHost
    (fun f => hasSuffix ".mp4" (File.name f))
    (fun f => hasSuffix ".mp3" (File.name f))
    (fun ts id =>
       fst <$> list_find (fun s => match id with
                               | ByKey k => bool_decide (Torrent.torrentKey s = Some k)
                               | ByHash h => bool_decide (Torrent.infoHash s = Some h)
                               end = true) ts)
    (fun ts h => fst <$> list_find (fun s => Torrent.infoHash s = h) ts)
    (fun _ => false)
    (fun _ _ => true)
    (fun language => if String.eqb language "English" then "en"
                     else if String.eqb language "German" then "de" else "")
    "en-US"
    (fun filePath =>
       if String.eqb filePath "/subs/en1.srt" then Some (mkVtt "AAAA" [("english", 0.4%Q)])
       else if String.eqb filePath "/subs/en2.srt" then Some (mkVtt "BBBB" [("english", 0.3%Q)])
       else if String.eqb filePath "/subs/de.srt" then Some (mkVtt "CCCC" [("german", 0.5%Q)])
       else None)
    (fun a b => a +:+ "/" +:+ b)
    (fun p => p)
    (fun name => substring (String.length name - 4) 4 name).

(** The same host with an engaged remote target that refuses every rate. *)
Definition refusingHost : Host :=
  mkHost (isVideo exampleHost) (isAudio exampleHost) (getByKey exampleHost)
    (getPlaying exampleHost) (fun _ => true) (fun _ _ => false)
    (iso639_getCode exampleHost) (navigator_language exampleHost)
    (readVtt exampleHost) (path_join exampleHost) (path_dirname exampleHost)
    (path_extname exampleHost).

Definition exampleWorld : World :=
  mkWorld defaultPlayState [] 1 "/downloads" "WebTorrent" true 0 [] NoTimer None [].

(** The example world while a video plays. *)
Definition videoWorld : World :=
  set_playing (Playing.set_type (Some Video) defaultPlayState) exampleWorld.

(** A torrent with a small and a large video, a song and a subtitle
    file, and the world that knows it, with the window out of focus. *)
Definition exampleFiles : list File.t :=
  [File.mk "trailer.mp4" "Film/trailer.mp4" 50 None None false;
   File.mk "film.mp4" "Film/film.mp4" 700 None None false;
   File.mk "song.mp3" "Film/song.mp3" 5 None None false;
   File.mk "film.srt" "Film/film.srt" 1 None None false].

Definition exampleTorrent : Torrent.t :=
  Torrent.mk (Some 1%nat) (Some "abc") Downloading (Some "Film") (Some "/downloads")
    (Some exampleFiles) None None None.

Definition torrentWorld : World :=
  mkWorld defaultPlayState [exampleTorrent] 2 "/downloads" "WebTorrent" false 0 []
    NoTimer None [].

(** A torrent without any media file. *)
Definition textTorrent : Torrent.t :=
  Torrent.mk (Some 1%nat) (Some "abc") Downloading (Some "Notes") (Some "/downloads")
    (Some [File.mk "notes.txt" "notes.txt" 9 None None false]) None None None.

(** The example torrent with a video playing: all pieces of the first and
    of the last file are there. *)
Definition discoveryWorld : World :=
  mkWorld (Playing.set_infoHash (Some "abc") (Playing.set_type (Some Video) defaultPlayState))
    [Torrent.mk (Some 1%nat) (Some "abc") Downloading (Some "Film") (Some "/downloads")
       (Some exampleFiles)
       (Some [FileProgress.mk 4 4; FileProgress.mk 9 3; FileProgress.mk 2 0;
              FileProgress.mk 1 1])
       None None]
    2 "/downloads" "WebTorrent" false 0 [] NoTimer None [].

(** An album: one song that was left after 30 of 200 seconds, without
    metadata. *)
Definition albumFiles : list File.t :=
  [File.mk "song.mp3" "Album/song.mp3" 5 (Some 30%Q) (Some 200%Q) false].

Definition albumTorrent : Torrent.t :=
  Torrent.mk (Some 7%nat) (Some "def") Downloading (Some "Album") (Some "/downloads")
    (Some albumFiles) None None None.

Definition albumWorld : World :=
  mkWorld defaultPlayState [albumTorrent] 8 "/downloads" "WebTorrent" true 0 []
    NoTimer None [].

(** The example torrent, paused. *)
Definition pausedTorrent : Torrent.t := Torrent.set_status Paused exampleTorrent.

Definition pausedWorld : World :=
  mkWorld defaultPlayState [pausedTorrent] 2 "/downloads" "WebTorrent" false 0 []
    NoTimer None [].

(** A list from an older configuration: an active item without key and
    path, a paused one, an active one with key 3. *)
Definition legacyWorld : World :=
  mkWorld defaultPlayState
    [Torrent.mk None (Some "aaa") Downloading (Some "One") None None None None None;
     Torrent.mk None (Some "bbb") Paused (Some "Two") None None None None None;
     Torrent.mk (Some 3%nat) (Some "ccc") Seeding (Some "Three") (Some "/films") None None
       None None]
    4 "/downloads" "WebTorrent" true 0 [] NoTimer None [].

Definition examplePage : Page.t :=
  Page.mk exampleWorld true "player" true 0 [].

(** * Properties *)

(** ** Numbers *)

Lemma Qgeb_true x y : Qgeb x y = true <-> (y <= x)%Q.
Proof. unfold Qgeb. apply Qle_bool_iff. Qed.

Lemma Qleb_true x y : Qleb x y = true <-> (x <= y)%Q.
Proof. unfold Qleb. apply Qle_bool_iff. Qed.

Lemma Qltb_true x y : Qltb x y = true <-> (x < y)%Q.
Proof.
  unfold Qltb. rewrite negb_true_iff, <- not_true_iff_false, Qle_bool_iff.
  split; [apply Qnot_le_lt | apply Qlt_not_le].
Qed.

Lemma Qgtb_true x y : Qgtb x y = true <-> (y < x)%Q.
Proof.
  unfold Qgtb. rewrite negb_true_iff, <- not_true_iff_false, Qle_bool_iff.
  split; [apply Qnot_le_lt | apply Qlt_not_le].
Qed.

Lemma Qeqb_true x y : Qeqb x y = true <-> (x == y)%Q.
Proof. unfold Qeqb. apply Qeq_bool_iff. Qed.

Lemma Qgeb_false x y : Qgeb x y = false <-> (x < y)%Q.
Proof.
  rewrite <- not_true_iff_false, Qgeb_true.
  split; [apply Qnot_le_lt | apply Qlt_not_le].
Qed.

Lemma Qleb_false x y : Qleb x y = false <-> (y < x)%Q.
Proof.
  rewrite <- not_true_iff_false, Qleb_true.
  split; [apply Qnot_le_lt | apply Qlt_not_le].
Qed.

Lemma Qltb_false x y : Qltb x y = false <-> (y <= x)%Q.
Proof.
  rewrite <- not_true_iff_false, Qltb_true.
  split; [apply Qnot_lt_le | apply Qle_not_lt].
Qed.

Lemma Qgtb_false x y : Qgtb x y = false <-> (x <= y)%Q.
Proof.
  rewrite <- not_true_iff_false, Qgtb_true.
  split; [apply Qnot_lt_le | apply Qle_not_lt].
Qed.

Lemma Qeqb_false x y : Qeqb x y = false <-> ~ (x == y)%Q.
Proof. rewrite <- not_true_iff_false, Qeqb_true. reflexivity. Qed.

(** Turn every comparison in the context into an order fact. *)
Ltac js_facts :=
  repeat match goal with
    | H : _ && _ = true |- _ => apply andb_true_iff in H; destruct H
    | H : _ || _ = false |- _ => apply orb_false_iff in H; destruct H
    | H : Qgeb _ _ = true |- _ => apply Qgeb_true in H
    | H : Qleb _ _ = true |- _ => apply Qleb_true in H
    | H : Qltb _ _ = true |- _ => apply Qltb_true in H
    | H : Qgtb _ _ = true |- _ => apply Qgtb_true in H
    | H : Qeqb _ _ = true |- _ => apply Qeqb_true in H
    | H : Qgeb _ _ = false |- _ => apply Qgeb_false in H
    | H : Qleb _ _ = false |- _ => apply Qleb_false in H
    | H : Qltb _ _ = false |- _ => apply Qltb_false in H
    | H : Qgtb _ _ = false |- _ => apply Qgtb_false in H
    | H : Qeqb _ _ = false |- _ => apply Qeqb_false in H
    | H : (_ >? _)%Z = true |- _ => apply Z.gtb_lt in H
    | H : (_ <? _)%Z = true |- _ => apply Z.ltb_lt in H
    | H : (_ >? _)%Z = false |- _ => rewrite Z.gtb_ltb in H; apply Z.ltb_ge in H
    | H : (_ <? _)%Z = false |- _ => apply Z.ltb_ge in H
    end.

Ltac js_split :=
  repeat match goal with
    | H : _ && _ = false |- _ => apply andb_false_iff in H; destruct H
    | H : _ || _ = true |- _ => apply orb_true_iff in H; destruct H
    | H : _ && _ = true |- _ => apply andb_true_iff in H; destruct H
    | H : _ || _ = false |- _ => apply orb_false_iff in H; destruct H
    end.

Ltac prune := js_split; js_facts; try (exfalso; lia); try (exfalso; lra).

(** Case analysis on the next test of an [if] chain, dropping the cases the
    context excludes. *)
Ltac next_test :=
  match goal with
  | |- context [if ?b then _ else _] => destruct b eqn:?; prune
  end.

(** ** The playback rate *)

Section Rate.

Variable host : Host.

Lemma changePlaybackRate_rate (d : Z) (w : World) :
  rateAfter host d w =
  if castRejects host d w then 1%Q
  else stepRate d (Playing.playbackRate (playing w)).
Proof.
  unfold rateAfter, castRejects, changePlaybackRate. simpl.
  destruct (Cast_isCasting host _); simpl; [|reflexivity].
  destruct (Cast_setRate host _ _); reflexivity.
Qed.

(** A rate-adjust command changes nothing in the state but the rate. *)
Lemma changePlaybackRate_frame (d : Z) (w : World) :
  Playing.set_playbackRate 0 (playing (changePlaybackRate host d w))
  = Playing.set_playbackRate 0 (playing w).
Proof.
  unfold changePlaybackRate. simpl.
  destruct (Cast_isCasting host _); simpl; [|reflexivity].
  destruct (Cast_setRate host _ _); reflexivity.
Qed.

Lemma stepRate_up_additive d r :
  (0 < d)%Z -> (0.25 <= r)%Q -> (r < 2)%Q -> stepRate d r = (r + 0.25)%Q.
Proof. intros. unfold stepRate. repeat next_test; reflexivity. Qed.

Lemma stepRate_down_additive d r :
  (d < 0)%Z -> (0.25 < r)%Q -> (r <= 2)%Q -> stepRate d r = (r - 0.25)%Q.
Proof. intros. unfold stepRate. repeat next_test; reflexivity. Qed.

Lemma stepRate_down_quarter d r :
  (d < 0)%Z -> (r == 0.25)%Q -> stepRate d r = (-1)%Q.
Proof. intros. unfold stepRate. repeat next_test; reflexivity. Qed.

Lemma stepRate_up_minus_one d r :
  (0 < d)%Z -> (r == -1)%Q -> stepRate d r = 0.25%Q.
Proof. intros. unfold stepRate. repeat next_test; reflexivity. Qed.

Lemma stepRate_up_double d r :
  (0 < d)%Z -> (2 <= r)%Q -> (r < 16)%Q -> stepRate d r = (r * 2)%Q.
Proof. intros. unfold stepRate. repeat next_test; reflexivity. Qed.

Lemma stepRate_down_double d r :
  (d < 0)%Z -> (-16 < r)%Q -> (r <= -1)%Q -> stepRate d r = (r * 2)%Q.
Proof. intros. unfold stepRate. repeat next_test; reflexivity. Qed.

Lemma stepRate_down_halve d r :
  (d < 0)%Z -> (2 < r)%Q -> (r <= 16)%Q -> stepRate d r = (r / 2)%Q.
Proof. intros. unfold stepRate. repeat next_test; reflexivity. Qed.

Lemma stepRate_up_halve d r :
  (0 < d)%Z -> (-16 <= r)%Q -> (r < -1)%Q -> stepRate d r = (r / 2)%Q.
Proof. intros. unfold stepRate. repeat next_test; reflexivity. Qed.

Lemma stepRate_up_top d r :
  (0 < d)%Z -> (16 <= r)%Q -> stepRate d r = r.
Proof. intros. unfold stepRate. repeat next_test; reflexivity. Qed.

Lemma stepRate_down_bottom d r :
  (d < 0)%Z -> (r <= -16)%Q -> stepRate d r = r.
Proof. intros. unfold stepRate. repeat next_test; reflexivity. Qed.

Lemma stepRate_zero r : stepRate 0 r = r.
Proof. reflexivity. Qed.

(** The ladder step does not tell equal rationals apart. *)
Lemma stepRate_compat d r x : (r == x)%Q -> (stepRate d r == stepRate d x)%Q.
Proof.
  intros E. unfold stepRate, Qgeb, Qleb, Qltb, Qgtb, Qeqb.
  assert (L : forall c, Qle_bool c r = Qle_bool c x)
    by (intros c; apply Qleb_comp; [reflexivity | exact E]).
  assert (R : forall c, Qle_bool r c = Qle_bool x c)
    by (intros c; apply Qleb_comp; [exact E | reflexivity]).
  assert (Q : forall c, Qeq_bool r c = Qeq_bool x c)
    by (intros c; apply Qeqb_comp; [exact E | reflexivity]).
  rewrite !L, !R, !Q.
  repeat match goal with
    | |- context [if ?b then _ else _] => destruct b
    end; rewrite ?E; reflexivity.
Qed.

Lemma onLadderb_sound r : onLadderb r = true -> onLadder r.
Proof.
  unfold onLadderb, onLadder. rewrite existsb_exists, List.Exists_exists.
  intros [x [Hin Heq]]. exists x. split; [exact Hin|]. now apply Qeq_bool_iff.
Qed.

Lemma onLadder_compat r x : (r == x)%Q -> onLadder x -> onLadder r.
Proof.
  unfold onLadder. rewrite !List.Exists_exists. intros E [y [Hin Hy]].
  exists y. split; [exact Hin|]. now rewrite E.
Qed.

Lemma onLadder_step d r : onLadder r -> onLadder (stepRate d r).
Proof.
  unfold onLadder at 1. rewrite List.Exists_exists. intros [x [Hin E]].
  apply (onLadder_compat _ (stepRate d x)); [now apply stepRate_compat|].
  clear E r. unfold ladder in Hin. simpl in Hin.
  repeat (destruct Hin as [<- | Hin]; [destruct d; apply onLadderb_sound; vm_compute; reflexivity|]).
  destruct Hin.
Qed.

Lemma onLadder_nonzero r : onLadder r -> ~ (r == 0)%Q.
Proof.
  unfold onLadder. rewrite List.Exists_exists. intros [x [Hin E]] Z.
  rewrite Z in E. clear Z r. unfold ladder in Hin. simpl in Hin.
  repeat (destruct Hin as [<- | Hin]; [discriminate E|]).
  destruct Hin.
Qed.

Lemma onLadder_changePlaybackRate d w :
  onLadder (Playing.playbackRate (playing w)) -> onLadder (rateAfter host d w).
Proof.
  intros H. rewrite changePlaybackRate_rate.
  destruct (castRejects host d w).
  - apply onLadderb_sound. reflexivity.
  - now apply onLadder_step.
Qed.

Lemma onLadder_adjustRate ds w :
  onLadder (Playing.playbackRate (playing w)) ->
  onLadder (Playing.playbackRate (playing (adjustRate host ds w))).
Proof.
  revert w. induction ds as [|d ds IH]; intros w H; simpl; [exact H|].
  apply IH. now apply onLadder_changePlaybackRate.
Qed.

(** C1 (as amended): while the remote target does not refuse the rate, an
    increase adds 0.25 to a rate in [0.25, 2), doubles a rate in [2, 16),
    halves a rate in [-16, -1), takes -1 to 0.25 and leaves 16 alone; a
    decrease subtracts 0.25 from a rate in (0.25, 2], halves a rate in
    (2, 16], doubles a rate in (-16, -1], takes 0.25 to -1 and leaves -16
    alone. *)
Theorem rate_ladder_steps (d : Z) (w : World) :
  castRejects host d w = false ->
  let r := Playing.playbackRate (playing w) in
  let r' := rateAfter host d w in
  ((0 < d)%Z ->
     ((0.25 <= r)%Q -> (r < 2)%Q -> r' = (r + 0.25)%Q) /\
     ((2 <= r)%Q -> (r < 16)%Q -> r' = (r * 2)%Q) /\
     ((r == 16)%Q -> r' = r) /\
     ((r == -1)%Q -> r' = 0.25%Q) /\
     ((-16 <= r)%Q -> (r < -1)%Q -> r' = (r / 2)%Q)) /\
  ((d < 0)%Z ->
     ((0.25 < r)%Q -> (r <= 2)%Q -> r' = (r - 0.25)%Q) /\
     ((2 < r)%Q -> (r <= 16)%Q -> r' = (r / 2)%Q) /\
     ((r == 0.25)%Q -> r' = (-1)%Q) /\
     ((-16 < r)%Q -> (r <= -1)%Q -> r' = (r * 2)%Q) /\
     ((r == -16)%Q -> r' = r)).
Proof.
  intros Hc r r'. subst r'. rewrite changePlaybackRate_rate, Hc. fold r.
  split; intros Hd; repeat split; intros.
  - now apply stepRate_up_additive.
  - now apply stepRate_up_double.
  - apply stepRate_up_top; [exact Hd | lra].
  - now apply stepRate_up_minus_one.
  - now apply stepRate_up_halve.
  - now apply stepRate_down_additive.
  - now apply stepRate_down_halve.
  - now apply stepRate_down_quarter.
  - now apply stepRate_down_double.
  - apply stepRate_down_bottom; [exact Hd | lra].
Qed.

(** C10: starting from rate 1, every sequence of rate-adjust commands
    leaves a rate on the ladder, hence a rate other than zero; a decrease
    at 0.25 gives -1, and a refused rate gives 1. *)
Theorem rate_never_zero (directions : list Z) (w : World) :
  (Playing.playbackRate (playing w) == 1)%Q ->
  let w' := adjustRate host directions w in
  onLadder (Playing.playbackRate (playing w')) /\
  ~ (Playing.playbackRate (playing w') == 0)%Q /\
  (forall d, (d < 0)%Z -> (Playing.playbackRate (playing w') == 0.25)%Q ->
             castRejects host d w' = false -> rateAfter host d w' = (-1)%Q) /\
  (forall d, castRejects host d w' = true -> rateAfter host d w' = 1%Q).
Proof.
  intros H1 w'.
  assert (L : onLadder (Playing.playbackRate (playing w'))).
  { apply onLadder_adjustRate. apply (onLadder_compat _ 1%Q H1).
    apply onLadderb_sound. reflexivity. }
  split; [exact L|]. split; [exact (onLadder_nonzero _ L)|]. split.
  - intros d Hd Hq Hc. rewrite changePlaybackRate_rate, Hc.
    now apply stepRate_down_quarter.
  - intros d Hc. now rewrite changePlaybackRate_rate, Hc.
Qed.

End Rate.

Lemma rate_ladder_steps_witness :
  rateAfter exampleHost 1 exampleWorld = (1 + 0.25)%Q.
Proof.
  destruct (rate_ladder_steps exampleHost 1 exampleWorld eq_refl) as [Hup _].
  destruct (Hup ltac:(lia)) as [Hadd _].
  apply Hadd; simpl; lra.
Defined.

(** C1 (as stated) fails: from rate 1 the first increase gives 1.25, and
    four increases give 1.25, 1.5, 1.75 and 2, not 2, 4, 8 and 16. *)
Lemma rate_four_increases_counterexample :
  let rate n :=
    Playing.playbackRate
      (playing (adjustRate exampleHost (repeat 1%Z n) exampleWorld)) in
  (rate 1%nat == 1.25)%Q /\ (rate 2%nat == 1.5)%Q /\ (rate 3%nat == 1.75)%Q /\
  (rate 4%nat == 2)%Q /\
  ~ (rate 1%nat == 2)%Q /\ ~ (rate 4%nat == 16)%Q.
Proof.
  repeat split; try (vm_compute; reflexivity);
    intros H; vm_compute in H; discriminate H.
Qed.

Example rate_ladder_walk :
  let rates directions :=
    map (fun n => Playing.playbackRate
                    (playing (adjustRate exampleHost (take n directions) exampleWorld)))
        (seq 1 (List.length directions)) in
  Forall2 Qeq (rates (repeat (-1)%Z 9)) [0.75; 0.5; 0.25; -1; -2; -4; -8; -16; -16]%Q /\
  Forall2 Qeq (rates (repeat 1%Z 8)) [1.25; 1.5; 1.75; 2; 4; 8; 16; 16]%Q /\
  Forall2 Qeq (rates (repeat (-1)%Z 4 ++ repeat 1%Z 2)) [0.75; 0.5; 0.25; -1; 0.25; 0.5]%Q.
Proof.
  repeat split; repeat (constructor; [vm_compute; reflexivity|]); constructor.
Qed.

Lemma rate_never_zero_witness :
  ~ (Playing.playbackRate
       (playing (adjustRate refusingHost [(-1)%Z; 1%Z] exampleWorld)) == 0)%Q.
Proof.
  apply (rate_never_zero refusingHost [(-1)%Z; 1%Z] exampleWorld).
  simpl. reflexivity.
Defined.

(** ** The volume *)

Lemma clamp_bounds v : (0 <= clamp v)%Q /\ (clamp v <= 1)%Q.
Proof.
  unfold clamp.
  destruct (Q.max_spec 0 (Qmin 1 v)) as [[H E] | [H E]];
    destruct (Q.min_spec 1 v) as [[H' E'] | [H' E']];
    rewrite E; rewrite ?E' in *; lra.
Qed.

Lemma clamp_cases v :
  ((v < 0)%Q -> (clamp v == 0)%Q) /\
  ((0 <= v)%Q -> (v <= 1)%Q -> (clamp v == v)%Q) /\
  ((1 < v)%Q -> (clamp v == 1)%Q).
Proof.
  unfold clamp.
  destruct (Q.max_spec 0 (Qmin 1 v)) as [[H E] | [H E]];
    destruct (Q.min_spec 1 v) as [[H' E'] | [H' E']];
    rewrite E; rewrite ?E' in *; repeat split; intros; lra.
Qed.

(** C9: the set-volume command applies max (0, min (1, v)): that value lies
    in [0, 1], it is what is sent to an engaged remote target and what is
    stored for the local media element otherwise, and nothing else changes;
    changeVolume (delta) is setVolume (volume + delta). *)
Theorem setVolume_clamps (v : Q) (w : World) :
  clamp v = Qmax 0 (Qmin 1 v) /\
  ((0 <= clamp v)%Q /\ (clamp v <= 1)%Q) /\
  (((v < 0)%Q -> (clamp v == 0)%Q) /\
   ((0 <= v)%Q -> (v <= 1)%Q -> (clamp v == v)%Q) /\
   ((1 < v)%Q -> (clamp v == 1)%Q)) /\
  setVolume v w =
    (if isCasting w then emit (ECastSetVolume (clamp v)) w
     else set_playing (Playing.set_setVolume (Some (clamp v)) (playing w)) w) /\
  (forall delta,
     changeVolume delta w = setVolume (Playing.volume (playing w) + delta) w).
Proof.
  split; [reflexivity|]. split; [apply clamp_bounds|].
  split; [apply clamp_cases|]. split; reflexivity.
Qed.

(** ** Subtitle labels *)

Lemma relabel_length counts tracks :
  List.length (relabel counts tracks) = List.length tracks.
Proof.
  revert counts. induction tracks as [|t ts IH]; intros counts; simpl; [reflexivity|].
  now rewrite IH.
Qed.

Lemma relabel_unlabelled counts tracks :
  map unlabelled (relabel counts tracks) = map unlabelled tracks.
Proof.
  revert counts. induction tracks as [|t ts IH]; intros counts; simpl; [reflexivity|].
  now rewrite IH.
Qed.

Lemma relabel_filePath counts tracks :
  map Track.filePath (relabel counts tracks) = map Track.filePath tracks.
Proof.
  revert counts. induction tracks as [|t ts IH]; intros counts; simpl; [reflexivity|].
  now rewrite IH.
Qed.

(** The labels depend on the languages only, so a second pass rewrites
    each label with itself. *)
Lemma relabel_relabel counts counts' tracks :
  relabel counts (relabel counts' tracks) = relabel counts tracks.
Proof.
  revert counts counts'. induction tracks as [|t ts IH]; intros c c'; simpl; [reflexivity|].
  now rewrite IH.
Qed.

Lemma occurrences_cons lang t ts :
  occurrences lang (t :: ts) =
  ((if String.eqb (Track.language t) lang then 1 else 0) + occurrences lang ts)%nat.
Proof. unfold occurrences. simpl. now destruct (String.eqb _ _). Qed.

(** The label written at position [i], with the counts the pass starts
    from. *)
Lemma relabel_lookup counts (tracks : list Track.t) i t :
  tracks !! i = Some t ->
  relabel counts tracks !! i =
  Some (Track.set_label
          (if (1 <? default 0 (counts !! Track.language t)
                    + occurrences (Track.language t) (take (S i) tracks))%nat
           then Track.language t +:+ " " +:+
                pretty (default 0 (counts !! Track.language t)
                        + occurrences (Track.language t) (take (S i) tracks))%nat
           else Track.language t) t).
Proof.
  revert counts i. induction tracks as [|t0 ts IH]; intros c i H; [discriminate H|].
  destruct i as [|i].
  - simpl in H. injection H as ->. simpl take. rewrite occurrences_cons.
    rewrite String.eqb_refl. unfold occurrences. simpl. reflexivity.
  - simpl in H. simpl relabel. change ((?x :: ?l) !! S i) with (l !! i).
    rewrite (IH _ i H).
    change (take (S (S i)) (t0 :: ts)) with (t0 :: take (S i) ts).
    rewrite occurrences_cons.
    destruct (String.eqb (Track.language t0) (Track.language t)) eqn:E.
    + apply String.eqb_eq in E. rewrite E, lookup_insert_eq. simpl.
      rewrite <- Nat.add_assoc. reflexivity.
    + apply String.eqb_neq in E. rewrite lookup_insert_ne by exact E. reflexivity.
Qed.

Lemma occurrences_at (tracks : list Track.t) i t :
  tracks !! i = Some t ->
  (1 <= occurrences (Track.language t) (take (S i) tracks))%nat.
Proof.
  revert i. induction tracks as [|t0 ts IH]; intros i H; [discriminate H|].
  change (take (S i) (t0 :: ts)) with (t0 :: take i ts).
  rewrite occurrences_cons. destruct i as [|i].
  - simpl in H. injection H as ->. rewrite String.eqb_refl. lia.
  - simpl in H. specialize (IH i H). lia.
Qed.

(** C7: relabelling twice gives what relabelling once gives, and the track
    at position [i] gets its language as label when it is the first track
    of that language in list order, and the language followed by a space
    and N when it is the Nth, N >= 2. *)
Theorem relabel_idempotent (s : Subtitles.t) :
  relabelSubtitles (relabelSubtitles s) = relabelSubtitles s /\
  forall i t, Subtitles.tracks s !! i = Some t ->
    let lang := Track.language t in
    let N := occurrences lang (take (S i) (Subtitles.tracks s)) in
    (1 <= N)%nat /\
    Subtitles.tracks (relabelSubtitles s) !! i
    = Some (Track.set_label (labelOf lang N) t) /\
    (N = 1%nat -> labelOf lang N = lang) /\
    ((2 <= N)%nat -> labelOf lang N = lang +:+ " " +:+ pretty N).
Proof.
  split.
  - unfold relabelSubtitles. destruct s as [ts sel menu]. simpl.
    now rewrite relabel_relabel.
  - intros i t H lang N.
    assert (HN : (1 <= N)%nat) by (apply occurrences_at; exact H).
    split; [exact HN|]. split; [|split].
    + unfold relabelSubtitles. simpl. rewrite (relabel_lookup _ _ _ _ H).
      rewrite lookup_empty. simpl. fold lang. fold N. unfold labelOf.
      destruct N as [|[|n]]; [lia | reflexivity | reflexivity].
    + intros ->. reflexivity.
    + intros H2. unfold labelOf. destruct N as [|[|n]]; [lia | lia | reflexivity].
Qed.

Example relabel_example :
  map Track.label
    (relabel ∅ [Track.mk "" "English" "" "a"; Track.mk "" "German" "" "b";
                Track.mk "" "English" "" "c"; Track.mk "" "English" "" "d"])
  = ["English"; "German"; "English 2"; "English 3"].
Proof. reflexivity. Qed.

(** ** Subtitle ingestion *)

Section Ingestion.

Variable host : Host.

Lemma stored_true track s :
  stored track s = true <-> In (Track.filePath track) (map Track.filePath (Subtitles.tracks s)).
Proof.
  unfold stored. rewrite existsb_exists, in_map_iff. split.
  - intros [t [Hin E]]. apply String.eqb_eq in E. exists t. split; [symmetry; exact E | exact Hin].
  - intros [t [E Hin]]. exists t. split; [exact Hin | apply String.eqb_eq; symmetry; exact E].
Qed.

Lemma stored_false track s :
  stored track s = false <-> ~ In (Track.filePath track) (map Track.filePath (Subtitles.tracks s)).
Proof. rewrite <- stored_true. symmetry. apply not_true_iff_false. Qed.

(** One round of the loop. *)
Lemma addTracks_cons autoSelect i track rest s :
  addTracks host autoSelect i (track :: rest) s =
  if stored track s then addTracks host autoSelect (S i) rest s
  else
    addTracks host autoSelect (S i) rest
      (let s1 := Subtitles.set_tracks (Subtitles.tracks s ++ [track]) s in
       if autoSelect && ((i =? 0)%nat || isSystemLanguage host (Track.language track))
       then Subtitles.set_selectedIndex (Some (List.length (Subtitles.tracks s1) - 1)%nat) s1
       else s1).
Proof. reflexivity. Qed.

Lemma addTracks_app autoSelect i pre rest s :
  addTracks host autoSelect i (pre ++ rest) s =
  addTracks host autoSelect (i + List.length pre) rest (addTracks host autoSelect i pre s).
Proof.
  revert i s. induction pre as [|t pre IH]; intros i s.
  - simpl. now rewrite Nat.add_0_r.
  - rewrite <- app_comm_cons, !addTracks_cons.
    replace (i + List.length (t :: pre))%nat with (S i + List.length pre)%nat by (simpl; lia).
    destruct (stored t s); apply IH.
Qed.

(** The stored tracks stay, in place; new ones go to the end. *)
Lemma addTracks_extends autoSelect i new s :
  exists added,
    Subtitles.tracks (addTracks host autoSelect i new s) = Subtitles.tracks s ++ added.
Proof.
  revert i s. induction new as [|t new IH]; intros i s.
  - exists []. simpl. now rewrite app_nil_r.
  - rewrite addTracks_cons. destruct (stored t s); [apply IH|].
    match goal with |- context [addTracks _ _ _ _ ?s1] => destruct (IH (S i) s1) as [added E] end.
    exists (t :: added). rewrite E.
    destruct (autoSelect && _); simpl; now rewrite <- app_assoc.
Qed.

Lemma addTracks_paths autoSelect i new s p :
  In p (map Track.filePath (Subtitles.tracks (addTracks host autoSelect i new s))) <->
  In p (map Track.filePath (Subtitles.tracks s)) \/ In p (map Track.filePath new).
Proof.
  revert i s. induction new as [|t new IH]; intros i s.
  - simpl. tauto.
  - rewrite addTracks_cons. destruct (stored t s) eqn:E.
    + rewrite IH. apply stored_true in E. simpl. split; [tauto|].
      intros [H | [<- | H]]; tauto.
    + rewrite IH. simpl.
      destruct (autoSelect && _); simpl; rewrite map_app, in_app_iff; simpl; tauto.
Qed.

Lemma addTracks_NoDup autoSelect i new s :
  NoDup (map Track.filePath (Subtitles.tracks s)) ->
  NoDup (map Track.filePath (Subtitles.tracks (addTracks host autoSelect i new s))).
Proof.
  revert i s. induction new as [|t new IH]; intros i s H; [exact H|].
  rewrite addTracks_cons. destruct (stored t s) eqn:E; [now apply IH|].
  apply IH. apply stored_false in E.
  assert (N : NoDup (map Track.filePath (Subtitles.tracks s ++ [t]))).
  { rewrite map_app. apply NoDup_app. split; [exact H|]. split.
    - intros p Hp Hq. simpl in Hq. apply list_elem_of_In in Hp, Hq.
      destruct Hq as [<- | []]. contradiction.
    - simpl. apply NoDup_singleton. }
  destruct (autoSelect && _); exact N.
Qed.

(** A batch of stored files only goes through the loop without effect. *)
Lemma addTracks_all_stored autoSelect i new s :
  Forall (fun t => In (Track.filePath t) (map Track.filePath (Subtitles.tracks s))) new ->
  addTracks host autoSelect i new s = s.
Proof.
  revert i. induction new as [|t new IH]; intros i H; [reflexivity|].
  apply Forall_cons in H as [Ht H]. rewrite addTracks_cons.
  apply stored_true in Ht. rewrite Ht. now apply IH.
Qed.

(** After a track that is not first in the batch, tracks that are stored
    or not in the system language leave the selection alone. *)
Lemma addTracks_keeps_selection i new s :
  Forall (fun u => isSystemLanguage host (Track.language u) = false \/
                   In (Track.filePath u) (map Track.filePath (Subtitles.tracks s))) new ->
  Subtitles.selectedIndex (addTracks host true (S i) new s) = Subtitles.selectedIndex s.
Proof.
  revert i s. induction new as [|u new IH]; intros i s H; [reflexivity|].
  apply Forall_cons in H as [Hu H]. rewrite addTracks_cons.
  destruct (stored u s) eqn:E; [now apply IH|].
  apply stored_false in E. destruct Hu as [Hu | Hu]; [|contradiction].
  rewrite Hu. simpl. rewrite IH; [reflexivity|].
  simpl. eapply List.Forall_impl; [|exact H]. simpl.
  intros v [Hv | Hv]; [now left | right].
  rewrite map_app, in_app_iff. now left.
Qed.

(** What the concurrent loads leave behind: one [onError] for each file
    that fails, and the tracks if none does. *)
Lemma parallel_loads files w :
  fst (parallel (map (loadSubtitle host) files) w)
  = Nat.iter (List.length (failed host files)) (onError "Error parsing subtitles file.") w
  /\ (failed host files = [] -> is_Some (snd (parallel (map (loadSubtitle host) files) w)))
  /\ (failed host files <> [] -> snd (parallel (map (loadSubtitle host) files) w) = None).
Proof.
  revert w. induction files as [|f files IH]; intros w.
  - simpl. split; [reflexivity|]. split; [intros _; eexists; reflexivity | congruence].
  - simpl map. simpl parallel. unfold failed. simpl List.filter. fold (failed host files).
    unfold loadSubtitle at 1 3 5.
    destruct (readVtt host f) as [buf|].
    + destruct (IH w) as [E1 [E2 E3]].
      destruct (parallel (map (loadSubtitle host) files) w) as [w1 rs]. simpl in *.
      split; [exact E1|]. split.
      * intros H. destruct (E2 H) as [tracks ->]. eexists; reflexivity.
      * intros H. now rewrite (E3 H).
    + destruct (IH (onError "Error parsing subtitles file." w)) as [E1 _].
      destruct (parallel (map (loadSubtitle host) files) _) as [w1 rs]. simpl in *.
      split; [|split; [discriminate | reflexivity]].
      rewrite E1. apply Nat.iter_swap.
Qed.

Lemma onError_playing message w : playing (onError message w) = playing w.
Proof. reflexivity. Qed.

Lemma iter_onError_playing n message w :
  playing (Nat.iter n (onError message) w) = playing w.
Proof. induction n as [|n IH]; [reflexivity|]. simpl. exact IH. Qed.

Lemma iter_onError_errors n message w :
  errors (Nat.iter n (onError message) w) = errors w ++ repeat message n.
Proof.
  induction n as [|n IH]; simpl; [now rewrite app_nil_r|].
  rewrite IH, <- app_assoc. f_equal. clear IH.
  induction n as [|n IH]; [reflexivity|]. simpl. now rewrite IH.
Qed.

Lemma parallel_playing files w :
  playing (fst (parallel (map (loadSubtitle host) files) w)) = playing w.
Proof. destruct (parallel_loads files w) as [-> _]. apply iter_onError_playing. Qed.

(** The three ways an ingest call ends. *)
Lemma addSubtitles_cases files autoSelect w :
  addSubtitles host files autoSelect w = w
  \/ (addSubtitles host files autoSelect w
      = fst (parallel (map (loadSubtitle host) files) w)
      /\ snd (parallel (map (loadSubtitle host) files) w) = None)
  \/ (exists tracks,
        snd (parallel (map (loadSubtitle host) files) w) = Some tracks /\
        addSubtitles host files autoSelect w
        = set_playing
            (Playing.set_subtitles
               (relabelSubtitles
                  (addTracks host autoSelect 0 tracks (Playing.subtitles (playing w))))
               (playing w))
            (fst (parallel (map (loadSubtitle host) files) w))).
Proof.
  unfold addSubtitles.
  destruct (negb _); [now left|].
  destruct (_ =? _)%nat; [now left|].
  pose proof (parallel_playing files w) as P.
  destruct (parallel (map (loadSubtitle host) files) w) as [w1 [tracks|]]; simpl in *.
  - right; right. exists tracks. rewrite P. split; reflexivity.
  - right; left. split; reflexivity.
Qed.

(** An ingest call in which a file fails: every failing file is reported,
    and nothing else happens. *)
Lemma addSubtitles_failed files autoSelect w :
  Playing.type (playing w) = Some Video ->
  failed host files <> [] ->
  addSubtitles host files autoSelect w
  = Nat.iter (List.length (failed host files)) (onError "Error parsing subtitles file.") w.
Proof.
  intros Hv Hf. unfold addSubtitles. rewrite Hv. simpl.
  destruct files as [|f files]; [now elim Hf|]. simpl (_ =? _)%nat. cbv iota.
  destruct (parallel_loads (f :: files) w) as [E1 [_ E3]]. specialize (E3 Hf).
  destruct (parallel (map (loadSubtitle host) (f :: files)) w) as [w1 r].
  simpl in E1, E3. subst r. exact E1.
Qed.

Lemma addSubtitles_loaded files autoSelect w w1 tracks :
  Playing.type (playing w) = Some Video ->
  parallel (map (loadSubtitle host) files) w = (w1, Some tracks) ->
  tracks <> [] ->
  Playing.subtitles (playing (addSubtitles host files autoSelect w))
  = relabelSubtitles (addTracks host autoSelect 0 tracks (Playing.subtitles (playing w))).
Proof.
  intros Hv Hp Hne. unfold addSubtitles. rewrite Hv. simpl.
  destruct files as [|f files].
  - simpl in Hp. injection Hp as _ <-. now elim Hne.
  - simpl (_ =? _)%nat. cbv iota.
    pose proof (parallel_playing (f :: files) w) as P.
    rewrite Hp in *. simpl in P. simpl. now rewrite P.
Qed.

Lemma addSubtitles_NoDup files autoSelect w :
  NoDup (trackPaths w) -> NoDup (trackPaths (addSubtitles host files autoSelect w)).
Proof.
  intros H. destruct (addSubtitles_cases files autoSelect w) as [-> | [[-> _] | [tracks [_ ->]]]].
  - exact H.
  - unfold trackPaths. now rewrite parallel_playing.
  - unfold trackPaths. simpl. rewrite relabel_filePath. now apply addTracks_NoDup.
Qed.

Lemma addSubtitles_extends files autoSelect w :
  exists added,
    map unlabelled (Subtitles.tracks (Playing.subtitles (playing (addSubtitles host files autoSelect w))))
    = map unlabelled (Subtitles.tracks (Playing.subtitles (playing w))) ++ added.
Proof.
  destruct (addSubtitles_cases files autoSelect w) as [-> | [[-> _] | [tracks [_ ->]]]].
  - exists []. now rewrite app_nil_r.
  - exists []. now rewrite parallel_playing, app_nil_r.
  - simpl. rewrite relabel_unlabelled.
    destruct (addTracks_extends autoSelect 0 tracks (Playing.subtitles (playing w)))
      as [added ->].
    exists (map unlabelled added). apply map_app.
Qed.

Lemma relabel_lookup_unlabelled counts (tracks : list Track.t) k :
  unlabelled <$> (relabel counts tracks !! k) = unlabelled <$> (tracks !! k).
Proof. now rewrite <- !list_lookup_fmap, relabel_unlabelled. Qed.

(** C3 (as amended): in a batch with autoSelect, let [t] be a track that is
    appended (its file is neither stored nor earlier in the batch) and that
    is the first of the batch or in the system language, and let every
    later track of the batch be stored already or not in the system
    language.  Then the selected index points at [t]: the last such track
    in input order wins. *)
Theorem autoSelect_last_match (files : list string) (w w1 : World)
    (pre post : list Track.t) (t : Track.t) :
  Playing.type (playing w) = Some Video ->
  parallel (map (loadSubtitle host) files) w = (w1, Some (pre ++ t :: post)) ->
  ~ In (Track.filePath t) (trackPaths w ++ map Track.filePath pre) ->
  (pre = [] \/ isSystemLanguage host (Track.language t) = true) ->
  Forall (fun u => isSystemLanguage host (Track.language u) = false \/
                   In (Track.filePath u)
                      (trackPaths w ++ map Track.filePath pre ++ [Track.filePath t]))
         post ->
  let s' := Playing.subtitles (playing (addSubtitles host files true w)) in
  exists k, Subtitles.selectedIndex s' = Some k /\
            unlabelled <$> (Subtitles.tracks s' !! k) = Some (unlabelled t).
Proof.
  intros Hv Hp Hnew Hq Hpost s'. subst s'.
  rewrite (addSubtitles_loaded _ _ _ _ _ Hv Hp) by (destruct pre; discriminate).
  set (s0 := Playing.subtitles (playing w)) in *.
  rewrite addTracks_app, addTracks_cons. simpl (0 + _)%nat.
  set (s1 := addTracks host true 0 pre s0).
  assert (Hs : stored t s1 = false).
  { apply stored_false. unfold s1. rewrite addTracks_paths.
    rewrite in_app_iff in Hnew. exact Hnew. }
  rewrite Hs.
  assert (Hc : true && ((List.length pre =? 0)%nat
                        || isSystemLanguage host (Track.language t)) = true).
  { destruct Hq as [-> | ->]; [reflexivity | apply orb_true_r]. }
  rewrite Hc. cbv zeta.
  set (s2 := Subtitles.set_selectedIndex _ _).
  exists (List.length (Subtitles.tracks s1)). split.
  - unfold relabelSubtitles. simpl. rewrite addTracks_keeps_selection.
    + unfold s2. simpl. rewrite length_app. simpl. f_equal. lia.
    + eapply List.Forall_impl; [|exact Hpost]. simpl.
      intros u [Hu | Hu]; [now left | right].
      rewrite map_app, in_app_iff. rewrite !in_app_iff in Hu.
      unfold s1. rewrite addTracks_paths. fold s0. unfold trackPaths in Hu. fold s0 in Hu.
      tauto.
  - unfold relabelSubtitles. simpl. rewrite relabel_lookup_unlabelled.
    destruct (addTracks_extends true (S (List.length pre)) post s2) as [added ->].
    unfold s2. simpl. rewrite <- app_assoc. simpl.
    rewrite list_lookup_middle by reflexivity. reflexivity.
Qed.

(** C4: whatever the calls, their files and their order, no two stored
    tracks come from the same file if none did before; the tracks stored
    before stay where they are, up to their labels; a candidate whose file
    is stored is passed over without any change; and a batch of stored
    files only leaves the tracks (relabelled) and the selection. *)
Theorem no_duplicate_paths (calls : list (list string * bool)) (w : World) :
  NoDup (trackPaths w) ->
  let w' := ingest host calls w in
  NoDup (trackPaths w') /\
  (exists added,
     map unlabelled (Subtitles.tracks (Playing.subtitles (playing w')))
     = map unlabelled (Subtitles.tracks (Playing.subtitles (playing w))) ++ added) /\
  (forall autoSelect i track rest s,
     stored track s = true ->
     addTracks host autoSelect i (track :: rest) s
     = addTracks host autoSelect (S i) rest s) /\
  (forall files autoSelect w1 tracks,
     Playing.type (playing w') = Some Video ->
     parallel (map (loadSubtitle host) files) w' = (w1, Some tracks) ->
     tracks <> [] ->
     Forall (fun t => In (Track.filePath t) (trackPaths w')) tracks ->
     Playing.subtitles (playing (addSubtitles host files autoSelect w'))
     = relabelSubtitles (Playing.subtitles (playing w'))).
Proof.
  intros H w'. subst w'. split; [|split; [|split]].
  - revert w H. induction calls as [|[files a] calls IH]; intros w H; [exact H|].
    simpl. apply IH. now apply addSubtitles_NoDup.
  - clear H. revert w. induction calls as [|[files a] calls IH]; intros w.
    + exists []. now rewrite app_nil_r.
    + simpl. destruct (IH (addSubtitles host files a w)) as [added2 ->].
      destruct (addSubtitles_extends files a w) as [added1 ->].
      exists (added1 ++ added2). now rewrite app_assoc.
  - intros autoSelect i track rest s Hs. now rewrite addTracks_cons, Hs.
  - intros files a w1 tracks Hv Hp Hne Hall.
    rewrite (addSubtitles_loaded _ _ _ _ _ Hv Hp Hne).
    now rewrite addTracks_all_stored.
Qed.

End Ingestion.

Lemma autoSelect_last_match_witness :
  exists k,
    Subtitles.selectedIndex
      (Playing.subtitles
         (playing (addSubtitles exampleHost ["/subs/de.srt"; "/subs/en1.srt"] true videoWorld)))
    = Some k /\ k = 1%nat.
Proof.
  destruct (autoSelect_last_match exampleHost ["/subs/de.srt"; "/subs/en1.srt"]
              videoWorld videoWorld
              [Track.mk "data:text/vtt;base64,CCCC" "German" "German" "/subs/de.srt"]
              []
              (Track.mk "data:text/vtt;base64,AAAA" "English" "English" "/subs/en1.srt")
              eq_refl eq_refl) as [k [Hk _]].
  - simpl. intros [H | H]; [discriminate H | exact H].
  - right. reflexivity.
  - constructor.
  - exists k. split; [exact Hk|]. vm_compute in Hk. congruence.
Defined.

(** C3 (as stated) fails: two English files are offered under an English
    locale; the selection ends on the second, at index 1, not on the first
    match, at index 0. *)
Lemma autoSelect_first_match_counterexample :
  let s' := Playing.subtitles
              (playing (addSubtitles exampleHost ["/subs/en1.srt"; "/subs/en2.srt"]
                          true videoWorld)) in
  map Track.filePath (Subtitles.tracks s') = ["/subs/en1.srt"; "/subs/en2.srt"] /\
  map (fun t => isSystemLanguage exampleHost (Track.language t)) (Subtitles.tracks s')
  = [true; true] /\
  Subtitles.selectedIndex s' = Some 1%nat /\
  Subtitles.selectedIndex s' <> Some 0%nat.
Proof. vm_compute. repeat split; congruence. Qed.

Lemma no_duplicate_paths_witness :
  NoDup (trackPaths
           (ingest exampleHost
              [(["/subs/en1.srt"; "/subs/en1.srt"], true); (["/subs/de.srt"; "/subs/en1.srt"], false)]
              videoWorld)).
Proof.
  apply (no_duplicate_paths exampleHost
           [(["/subs/en1.srt"; "/subs/en1.srt"], true); (["/subs/de.srt"; "/subs/en1.srt"], false)]
           videoWorld).
  simpl. constructor.
Defined.

Example ingest_example :
  trackPaths
    (ingest exampleHost
       [(["/subs/en1.srt"; "/subs/en1.srt"], true); (["/subs/de.srt"; "/subs/en1.srt"], false)]
       videoWorld)
  = ["/subs/en1.srt"; "/subs/de.srt"].
Proof. reflexivity. Qed.

(** C5 (code): two files of one batch fail to load.  Nothing is appended
    and the selection stays, but two errors are queued, one for each
    file. *)
Theorem failing_batch_reports_each_file :
  let w' := addSubtitles exampleHost ["/subs/bad1.srt"; "/subs/en1.srt"; "/subs/bad2.srt"]
              true videoWorld in
  playing w' = playing videoWorld /\
  errors w' = ["Error parsing subtitles file."; "Error parsing subtitles file."] /\
  List.length (errors w') <> 1%nat.
Proof. vm_compute. repeat split; congruence. Qed.

(** ** Completion events *)

Section Aggregator.

Variable host : Host.

Lemma getTorrentSummary_Some id w ts s :
  getTorrentSummary host id w = Some (ts, s) -> torrents w !! ts = Some s.
Proof.
  unfold getTorrentSummary. destruct (getByKey host (torrents w) id) as [n|]; [|discriminate].
  destruct (torrents w !! n) eqn:E; [|discriminate]. intros H. injection H as <- <-. exact E.
Qed.

Lemma update_torrent_lookup ts f w s :
  torrents w !! ts = Some s -> torrents (update_torrent ts f w) !! ts = Some (f s).
Proof. intros H. unfold update_torrent. simpl. now rewrite list_lookup_alter_eq, H. Qed.

(** C6: for a completion event of a known item, the status becomes
    seeding; with no byte received there is no notification and the
    unseen-completions counter stays; with at least one byte received there
    is exactly one notification, and the counter grows by one exactly when
    the window is not focused. *)
Theorem completion_notifies_once (id : TorrentId) (bytesReceived : Z) (w : World)
    (ts : nat) (s : Torrent.t) :
  getTorrentSummary host id w = Some (ts, s) ->
  let w' := world_of (torrentDone host id bytesReceived w) in
  torrents w' !! ts = Some (Torrent.set_status Seeding s) /\
  exists new,
    log w' = log w ++ new /\
    ((bytesReceived <= 0)%Z ->
       notifications new = [] /\ badge w' = badge w /\
       torrentDone host id bytesReceived w
       = Ret tt (emit EUpdate (update_torrent ts (Torrent.set_status Seeding) w))) /\
    ((1 <= bytesReceived)%Z ->
       notifications new = [ENotification "Download Complete" (Torrent.name s)] /\
       badge w' = if isFocused w then badge w else (badge w + 1)%Z).
Proof.
  intros Hfound w'. subst w'.
  pose proof (getTorrentSummary_Some _ _ _ _ Hfound) as Hs.
  assert (Hs' : alter (Torrent.set_status Seeding) ts (torrents w) !! ts
                = Some (Torrent.set_status Seeding s))
    by (now rewrite list_lookup_alter_eq, Hs).
  unfold torrentDone. simpl. rewrite Hfound. simpl.
  destruct (bytesReceived >? 0)%Z eqn:Hb.
  - apply Z.gtb_lt in Hb. simpl. unfold deref. simpl.
    destruct (isFocused w); simpl; rewrite Hs'; simpl;
      unfold getTorrentPath; simpl;
      (destruct (Torrent.files s) as [files|]; simpl;
       [destruct (files !! 0%nat) as [file0|]; simpl;
        [destruct (Torrent.path s) as [dir|]; simpl|]|]);
      (split; [exact Hs'|]); (eexists; split;
        [rewrite <- ?app_assoc; reflexivity
        |split; [lia | intros _; split; reflexivity]]).
  - rewrite Z.gtb_ltb in Hb. apply Z.ltb_ge in Hb. simpl.
    split; [exact Hs'|]. exists [EUpdate]. split; [reflexivity|].
    split; [intros _; repeat split | lia].
Qed.

End Aggregator.

Lemma completion_notifies_once_witness :
  notifications (log (world_of (torrentDone exampleHost (ByKey 1) 1024 torrentWorld)))
  = [ENotification "Download Complete" (Some "Film")].
Proof.
  destruct (completion_notifies_once exampleHost (ByKey 1) 1024 torrentWorld
              0%nat exampleTorrent eq_refl) as [_ [new [Hlog [_ Hpos]]]].
  rewrite Hlog. destruct (Hpos ltac:(lia)) as [Hn _]. exact Hn.
Defined.

Example completion_example :
  let zero := world_of (torrentDone exampleHost (ByKey 1) 0 torrentWorld) in
  let some := world_of (torrentDone exampleHost (ByKey 1) 1024 torrentWorld) in
  log zero = [EUpdate] /\ badge zero = 0%Z /\
  log some = [ENotification "Download Complete" (Some "Film"); ESound DONE;
              EIpc (DownloadFinished "/downloads/Film/trailer.mp4"); EUpdate] /\
  badge some = 1%Z.
Proof. repeat split. Qed.

(** ** Choosing the file to play *)

Section Player.

Variable host : Host.

Lemma indexedFrom_fst i files :
  map fst (indexedFrom i files) = seq i (List.length files).
Proof.
  revert i. induction files as [|f files IH]; intros i; simpl; [reflexivity|].
  now rewrite IH.
Qed.

Lemma indexedFrom_snd i files : map snd (indexedFrom i files) = files.
Proof.
  revert i. induction files as [|f files IH]; intros i; simpl; [reflexivity|].
  now rewrite IH.
Qed.

Lemma indexedFrom_In i files j f :
  In (j, f) (indexedFrom i files) -> (i <= j)%nat /\ files !! (j - i)%nat = Some f.
Proof.
  revert i. induction files as [|g files IH]; intros i H; [destruct H|].
  destruct H as [H | H].
  - injection H as <- <-. split; [lia|]. now rewrite Nat.sub_diag.
  - apply IH in H as [Hle Hl]. split; [lia|].
    replace (j - i)%nat with (S (j - S i)) by lia. exact Hl.
Qed.

Lemma In_indexedFrom i (files : list File.t) k f :
  files !! k = Some f -> In ((i + k)%nat, f) (indexedFrom i files).
Proof.
  revert i k. induction files as [|g files IH]; intros i k H; [discriminate H|].
  destruct k as [|k].
  - injection H as ->. left. now rewrite Nat.add_0_r.
  - right. replace (i + S k)%nat with (S i + k)%nat by lia. now apply IH.
Qed.







End Player.


Example openPlayer_unplayable_example :
  openPlayer exampleHost (ByHash "abc") None (set_torrents [textTorrent] torrentWorld)
  = Ret tt (emit (ECallback (Some UnplayableError)) (set_torrents [textTorrent] torrentWorld)).
Proof. reflexivity. Qed.

Example pickFileToPlay_example :
  pickFileToPlay exampleHost exampleFiles = Some 1%nat /\
  pickFileToPlay exampleHost (drop 2 exampleFiles) = Some 0%nat /\
  pickFileToPlay exampleHost (drop 3 exampleFiles) = None.
Proof. repeat split. Qed.

(** ** The session and its timeout *)

Section Session.

Variable host : Host.

Lemma quietStep_refl ts w : quietStep ts w w.
Proof.
  repeat split; [now left|]. exists []. now rewrite app_nil_r.
Qed.

Lemma quietStep_trans ts w1 w2 w3 :
  quietStep ts w1 w2 -> quietStep ts w2 w3 -> quietStep ts w1 w3.
Proof.
  intros [T1 [P1 [L1 [x1 [E1 Q1]]]]] [T2 [P2 [L2 [x2 [E2 Q2]]]]].
  split; [congruence|]. split; [congruence|]. split.
  - destruct L2 as [L2 | L2]; [rewrite L2; exact L1 | now right].
  - exists (x1 ++ x2). split.
    + now rewrite E2, E1, app_assoc.
    + rewrite forallb_app, Q1, Q2. reflexivity.
Qed.

Lemma quietStep_emit ts e w : quiet e = true -> quietStep ts w (emit e w).
Proof.
  intros Q. repeat split; [now left|]. exists [e]. split; [reflexivity|].
  simpl. now rewrite Q.
Qed.

Lemma quietStep_set_playing ts p w : quietStep ts w (set_playing p w).
Proof.
  repeat split; [now left|]. exists []. simpl. now rewrite app_nil_r.
Qed.

Lemma quietStep_onError ts message w : quietStep ts w (onError message w).
Proof.
  repeat split; [now left|]. exists [ESound ERROR; EUpdate]. split; [|reflexivity].
  unfold onError. simpl. now rewrite <- app_assoc.
Qed.

Lemma quietStep_iter_onError ts n message w :
  quietStep ts w (Nat.iter n (onError message) w).
Proof.
  induction n as [|n IH]; [apply quietStep_refl|].
  simpl. eapply quietStep_trans; [exact IH | apply quietStep_onError].
Qed.

Lemma quietStep_addSubtitles ts files autoSelect w :
  quietStep ts w (addSubtitles host files autoSelect w).
Proof.
  destruct (addSubtitles_cases host files autoSelect w) as [-> | [[-> _] | [tracks [_ ->]]]].
  - apply quietStep_refl.
  - destruct (parallel_loads host files w) as [-> _]. apply quietStep_iter_onError.
  - eapply quietStep_trans; [|apply quietStep_set_playing].
    destruct (parallel_loads host files w) as [-> _]. apply quietStep_iter_onError.
Qed.

(** *** Steps of code that may throw *)

Lemma preserves_ret ts {A} (a : A) : preserves (quietStep ts) (ret a).
Proof. intros w. apply quietStep_refl. Qed.

Lemma preserves_throw ts {A} : preserves (quietStep ts) (@throw A).
Proof. intros w. apply quietStep_refl. Qed.

Lemma preserves_gets ts {A} (f : World -> A) : preserves (quietStep ts) (gets f).
Proof. intros w. apply quietStep_refl. Qed.

Lemma preserves_defined ts {A} (o : option A) : preserves (quietStep ts) (defined o).
Proof. intros w. destruct o; apply quietStep_refl. Qed.

Lemma preserves_modify ts (f : World -> World) :
  (forall w, quietStep ts w (f w)) -> preserves (quietStep ts) (modify f).
Proof. intros H w. apply H. Qed.

Lemma preserves_bind ts {A B} (m : Eff A) (k : A -> Eff B) :
  preserves (quietStep ts) m -> (forall a, preserves (quietStep ts) (k a)) ->
  preserves (quietStep ts) (bind m k).
Proof.
  intros Hm Hk w. specialize (Hm w). simpl. destruct (m w) as [a w1 | w1]; simpl in *.
  - eapply quietStep_trans; [exact Hm | apply Hk].
  - exact Hm.
Qed.

Lemma preserves_forEach ts {A} (f : nat -> A -> Eff unit) i l :
  (forall i x, preserves (quietStep ts) (f i x)) ->
  preserves (quietStep ts) (forEach f i l).
Proof.
  intros Hf. revert i. induction l as [|x l IH]; intros i; simpl forEach.
  - apply preserves_ret.
  - apply preserves_bind; [apply Hf | intros _; apply IH].
Qed.

Ltac quiet_steps :=
  repeat match goal with
    | |- preserves _ (bind _ _) => apply preserves_bind; [|intros ?]
    | |- preserves _ (ret _) => apply preserves_ret
    | |- preserves _ throw => apply preserves_throw
    | |- preserves _ (gets _) => apply preserves_gets
    | |- preserves _ (defined _) => apply preserves_defined
    | |- preserves _ (modify _) => apply preserves_modify; intros ?
    | |- preserves _ (if ?b then _ else _) => destruct b
    | |- preserves _ (match ?o with Some _ => _ | None => _ end) => destruct o
    | |- quietStep _ _ (set_playing _ _) => apply quietStep_set_playing
    | |- quietStep _ _ (addSubtitles _ _ _ _) => apply quietStep_addSubtitles
    | |- quietStep _ _ (emit _ _) => apply quietStep_emit; reflexivity
    end.

Lemma preserves_checkForSubtitles ts : preserves (quietStep ts) (checkForSubtitles host).
Proof.
  unfold checkForSubtitles. quiet_steps.
  apply preserves_forEach. intros i x. quiet_steps.
Qed.

Lemma quietStep_set_listener ts w :
  quietStep ts w (set_listener (Some (OnServerReady ts)) w).
Proof.
  repeat split; [now right|]. exists []. simpl. now rewrite app_nil_r.
Qed.

Lemma quietStep_set_nextTorrentKey ts k w : quietStep ts w (set_nextTorrentKey k w).
Proof.
  repeat split; [now left|]. exists []. simpl. now rewrite app_nil_r.
Qed.

Lemma playStatusOf_update_torrent ts ts' f w :
  playStatusOf ts (update_torrent ts' f w)
  = if decide (ts' = ts)
    then torrents w !! ts ≫= fun s => Torrent.playStatus (f s)
    else playStatusOf ts w.
Proof.
  unfold playStatusOf, update_torrent. simpl. destruct (decide (ts' = ts)) as [-> | N].
  - rewrite list_lookup_alter_eq. now destruct (torrents w !! ts).
  - now rewrite list_lookup_alter_ne.
Qed.

Lemma quietStep_update_torrent ts ts' f w :
  (forall s, Torrent.playStatus (f s) = Torrent.playStatus s) ->
  quietStep ts w (update_torrent ts' f w).
Proof.
  intros Hf. split; [reflexivity|]. split.
  - rewrite playStatusOf_update_torrent. destruct (decide _); [|reflexivity].
    unfold playStatusOf. destruct (torrents w !! ts); simpl; [apply Hf | reflexivity].
  - split; [now left|]. exists []. simpl. now rewrite app_nil_r.
Qed.

Lemma preserves_openPlayerFromActiveTorrent ts index :
  preserves (quietStep ts) (openPlayerFromActiveTorrent host ts index).
Proof.
  unfold openPlayerFromActiveTorrent, deref. quiet_steps;
    first [apply preserves_checkForSubtitles | apply quietStep_set_listener].
Qed.

Lemma preserves_startTorrentingSummary ts :
  preserves (quietStep ts) (startTorrentingSummary ts).
Proof.
  unfold startTorrentingSummary, deref. quiet_steps;
    first [apply quietStep_set_nextTorrentKey
          | apply quietStep_update_torrent; intros; reflexivity].
Qed.

(** *** The log of a session *)

Lemma callbacks_app l1 l2 : callbacks (l1 ++ l2) = callbacks l1 ++ callbacks l2.
Proof. apply List.filter_app. Qed.

Lemma quiet_callbacks extra : forallb quiet extra = true -> callbacks extra = [].
Proof.
  induction extra as [|e extra IH]; [reflexivity|]. simpl.
  intros H. apply andb_true_iff in H as [He H]. rewrite (IH H).
  destruct e; try reflexivity. discriminate He.
Qed.

Lemma quiet_not_In extra e : forallb quiet extra = true -> quiet e = false -> ~ In e extra.
Proof.
  intros H He Hin. rewrite forallb_forall in H. specialize (H e Hin). congruence.
Qed.

Lemma sessionLog_extend base cbs w w' extra :
  sessionLog base cbs w -> log w' = log w ++ extra ->
  ~ In (EIpc OnPlayerOpen) extra ->
  sessionLog base (cbs ++ callbacks extra) w'.
Proof.
  intros [new [E [C N]]] E' N'. exists (new ++ extra). split.
  - now rewrite E', E, app_assoc.
  - split; [now rewrite callbacks_app, C|]. rewrite in_app_iff. tauto.
Qed.

Lemma sessionLog_quietStep ts base cbs w w' :
  sessionLog base cbs w -> quietStep ts w w' -> sessionLog base cbs w'.
Proof.
  intros H [_ [_ [_ [extra [E Q]]]]].
  rewrite <- (app_nil_r cbs), <- (quiet_callbacks extra Q).
  apply (sessionLog_extend base cbs w w' extra H E).
  now apply quiet_not_In.
Qed.

Lemma listenerOf_quietStep ts w w' :
  listenerOf ts w -> quietStep ts w w' -> listenerOf ts w'.
Proof.
  intros L [_ [_ [[E | E] _]]]; [unfold listenerOf; now rewrite E|].
  right; now left.
Qed.

Lemma pending_quietStep ts base w w' :
  pending ts base w -> quietStep ts w w' -> pending ts base w'.
Proof.
  intros [T [P [L S]]] Q. pose proof Q as [T' [P' _]].
  split; [congruence|]. split; [congruence|].
  split; [exact (listenerOf_quietStep _ _ _ L Q) | exact (sessionLog_quietStep _ _ _ _ _ S Q)].
Qed.

Lemma timedOut_quietStep ts base w w' :
  timedOut ts base w -> quietStep ts w w' -> timedOut ts base w'.
Proof.
  intros [T [P [L S]]] Q. pose proof Q as [T' [P' _]].
  split; [congruence|]. split; [congruence|].
  split; [exact (listenerOf_quietStep _ _ _ L Q) | exact (sessionLog_quietStep _ _ _ _ _ S Q)].
Qed.

(** *** What each event does in each phase *)

Lemma deliver_timeout_pending ts base w :
  pending ts base w -> timedOut ts base (deliver host w EvTimeout).
Proof.
  intros [T [P [L S]]]. unfold deliver, handle. rewrite T. simpl.
  split; [reflexivity|]. split; [|split].
  - unfold playStatusOf in *. simpl. rewrite list_lookup_alter_eq.
    destruct (torrents w !! ts); [reflexivity | discriminate P].
  - exact L.
  - apply (sessionLog_extend base [] w _
             [ETelemetry "timeout"; ESound ERROR; ECallback (Some PlaybackTimedOut); EUpdate] S).
    + simpl. now rewrite <- !app_assoc.
    + simpl. intros [H | [H | [H | [H | []]]]]; discriminate H.
Qed.

Lemma deliver_timeout_unarmed w :
  (forall ts, timer w <> Armed ts) -> deliver host w EvTimeout = w.
Proof.
  intros T. unfold deliver, handle. destruct (timer w) as [| ts | |]; try reflexivity.
  now elim (T ts).
Qed.

Lemma deliver_engineReady ts w :
  listenerOf ts w ->
  (deliver host w EvEngineReady = w \/
   quietStep ts (set_listener None w) (deliver host w EvEngineReady)).
Proof.
  intros [L | [L | [index L]]]; unfold deliver, handle; rewrite L.
  - left. now destruct (timer w).
  - left. now destruct (timer w).
  - right. apply (preserves_openPlayerFromActiveTorrent ts index (set_listener None w)).
Qed.

Lemma listenerOf_set_listener_None ts w : listenerOf ts (set_listener None w).
Proof. now left. Qed.

Lemma deliver_engineReady_pending ts base w :
  pending ts base w -> pending ts base (deliver host w EvEngineReady).
Proof.
  intros H. pose proof H as [T [P [L S]]].
  destruct (deliver_engineReady ts w L) as [-> | Q]; [exact H|].
  apply (pending_quietStep ts base (set_listener None w)); [|exact Q].
  split; [exact T|]. split; [exact P|]. split; [apply listenerOf_set_listener_None | exact S].
Qed.

Lemma deliver_engineReady_timedOut ts base w :
  timedOut ts base w -> timedOut ts base (deliver host w EvEngineReady).
Proof.
  intros H. pose proof H as [T [P [L S]]].
  destruct (deliver_engineReady ts w L) as [-> | Q]; [exact H|].
  apply (timedOut_quietStep ts base (set_listener None w)); [|exact Q].
  split; [exact T|]. split; [exact P|]. split; [apply listenerOf_set_listener_None | exact S].
Qed.

(** The late server-ready event: the listener is dropped, the play status
    is deleted, the server is stopped, and the player is not opened. *)
Lemma deliver_serverReady_timedOut ts base w :
  timedOut ts base w -> listener w = Some (OnServerReady ts) ->
  deliver host w EvServerReady
  = emit EUpdate
      (emit (EIpc WtStopServer)
         (update_torrent ts (Torrent.set_playStatus None) (set_listener None w)))
  /\ discarded ts base (deliver host w EvServerReady).
Proof.
  intros [T [P [_ S]]] L.
  assert (E : deliver host w EvServerReady
              = emit EUpdate
                  (emit (EIpc WtStopServer)
                     (update_torrent ts (Torrent.set_playStatus None) (set_listener None w)))).
  { unfold deliver, handle. rewrite L.
    unfold onServerReady, clearTimeout, deref. simpl. rewrite T. simpl.
    unfold playStatusOf in P. destruct (torrents w !! ts) as [s|]; [|discriminate P].
    simpl in *. rewrite P. reflexivity. }
  split; [exact E|]. rewrite E. clear E.
  split; [exact T|]. split; [|split; [reflexivity|split]].
  - unfold playStatusOf in *. simpl. rewrite list_lookup_alter_eq.
    now destruct (torrents w !! ts).
  - rewrite <- (app_nil_r [ECallback (Some PlaybackTimedOut)]).
    apply (sessionLog_extend base _ w _ [EIpc WtStopServer; EUpdate] S).
    + simpl. now rewrite <- !app_assoc.
    + simpl. intros [H | [H | []]]; discriminate H.
  - destruct S as [new [E _]]. exists (new ++ [EIpc WtStopServer; EUpdate]). split.
    + simpl. now rewrite E, <- !app_assoc.
    + rewrite in_app_iff. right. now left.
Qed.

Lemma deliver_serverReady_unregistered ts w :
  listenerOf ts w -> listener w <> Some (OnServerReady ts) ->
  deliver host w EvServerReady = w.
Proof.
  intros [L | [L | [index L]]] N; [| contradiction |];
    unfold deliver, handle; rewrite L; now destruct (timer w).
Qed.


(** *** Sequences of events *)





(** [openPlayer] with a file to play leaves a session waiting, its timer
    armed, none of its effects being a call of the continuation. *)
Lemma openPlayer_pending id index w ts s :
  getTorrentSummary host id w = Some (ts, s) ->
  listener w = None ->
  pending ts (log w) (world_of (openPlayer host id (Some index) w)).
Proof.
  intros Hfound L. pose proof (getTorrentSummary_Some _ _ _ _ _ Hfound) as Hs.
  unfold openPlayer. simpl. rewrite Hfound. simpl.
  set (wa := set_timer (Armed ts) _).
  assert (Pa : pending ts (log w) wa).
  { split; [reflexivity|]. split; [|split].
    - unfold playStatusOf, wa. simpl. now rewrite list_lookup_alter_eq, Hs.
    - left. exact L.
    - exists [ESound PLAY; EUpdate]. split; [|split; [reflexivity|]].
      + unfold wa. simpl. now rewrite <- app_assoc.
      + simpl. intros [H | [H | []]]; discriminate H. }
  destruct (bool_decide (Torrent.status s = Paused)).
  - pose proof (preserves_startTorrentingSummary ts wa) as Q.
    apply (pending_quietStep _ _ _ _ Pa) in Q. clearbody wa. simpl.
    destruct (startTorrentingSummary ts wa) as [[] wb | wb]; simpl in *; [|exact Q].
    destruct Q as [T [P [_ S]]]. split; [exact T|]. split; [exact P|].
    split; [|exact S]. right. right. now exists index.
  - apply (pending_quietStep _ _ _ _ Pa).
    apply preserves_openPlayerFromActiveTorrent.
Qed.


End Session.


Example timeout_race_example :
  let w1 := world_of (openPlayer exampleHost (ByHash "abc") None torrentWorld) in
  log (run exampleHost [EvTimeout; EvServerReady] w1)
  = [ESound PLAY; EUpdate; EIpc (WtStartServer (Some "abc") 1);
     ETelemetry "timeout"; ESound ERROR; ECallback (Some PlaybackTimedOut); EUpdate;
     EIpc WtStopServer; EUpdate] /\
  log (run exampleHost [EvServerReady; EvTimeout] w1)
  = [ESound PLAY; EUpdate; EIpc (WtStartServer (Some "abc") 1);
     EUpdate; EIpc OnPlayerOpen; ECallback None].
Proof. split; reflexivity. Qed.

Example paused_session_example :
  let paused := set_torrents [Torrent.set_status Paused exampleTorrent] torrentWorld in
  let w1 := world_of (openPlayer exampleHost (ByHash "abc") None paused) in
  listener w1 = Some (OnEngineReady 0 1) /\
  callbacks (log (run exampleHost [EvTimeout; EvServerReady; EvEngineReady; EvServerReady] w1))
  = [ECallback (Some PlaybackTimedOut)] /\
  In (EIpc WtStopServer)
     (log (run exampleHost [EvTimeout; EvServerReady; EvEngineReady; EvServerReady] w1)).
Proof. vm_compute. repeat split. tauto. Qed.

(** * Further properties *)

(** ** Relations kept by code that may throw *)

Lemma stable_ret {A} (R : World -> World -> Prop) (a : A) :
  (forall w, R w w) -> stable R (ret a).
Proof. intros Rr w. apply Rr. Qed.

Lemma stable_throw {A} (R : World -> World -> Prop) :
  (forall w, R w w) -> stable R (@throw A).
Proof. intros Rr w. apply Rr. Qed.

Lemma stable_gets {A} (R : World -> World -> Prop) (f : World -> A) :
  (forall w, R w w) -> stable R (gets f).
Proof. intros Rr w. apply Rr. Qed.

Lemma stable_defined {A} (R : World -> World -> Prop) (o : option A) :
  (forall w, R w w) -> stable R (defined o).
Proof. intros Rr w. destruct o; apply Rr. Qed.

Lemma stable_modify (R : World -> World -> Prop) (f : World -> World) :
  (forall w, R w (f w)) -> stable R (modify f).
Proof. intros H w. apply H. Qed.

Lemma stable_bind {A B} (R : World -> World -> Prop) (m : Eff A) (k : A -> Eff B) :
  (forall a b c, R a b -> R b c -> R a c) ->
  stable R m -> (forall a, stable R (k a)) -> stable R (bind m k).
Proof.
  intros Rt Hm Hk w. specialize (Hm w). simpl. destruct (m w) as [a w1 | w1]; simpl in *.
  - eapply Rt; [exact Hm | apply Hk].
  - exact Hm.
Qed.

Lemma stable_forEach {A} (R : World -> World -> Prop) (f : nat -> A -> Eff unit) i l :
  (forall w, R w w) -> (forall a b c, R a b -> R b c -> R a c) ->
  (forall i x, stable R (f i x)) -> stable R (forEach f i l).
Proof.
  intros Rr Rt Hf. revert i. induction l as [|x l IH]; intros i; simpl forEach.
  - now apply stable_ret.
  - apply stable_bind; [exact Rt | apply Hf | intros _; apply IH].
Qed.

Ltac stable_steps Rr Rt :=
  repeat match goal with
    | |- stable _ (bind _ _) => apply (stable_bind _ _ _ Rt); [|intros ?]
    | |- stable _ (ret _) => apply (stable_ret _ _ Rr)
    | |- stable _ throw => apply (stable_throw _ Rr)
    | |- stable _ (gets _) => apply (stable_gets _ _ Rr)
    | |- stable _ (defined _) => apply (stable_defined _ _ Rr)
    | |- stable _ (forEach _ _ _) => apply (stable_forEach _ _ _ _ Rr Rt); intros ? ?
    | |- stable _ (if ?b then _ else _) => destruct b
    | |- stable _ (match ?o with Some _ => _ | None => _ end) => destruct o
    end.

(** Whatever every ingest without selection keeps, the discovery keeps. *)
Lemma stable_checkForSubtitles host (R : World -> World -> Prop) :
  (forall w, R w w) -> (forall a b c, R a b -> R b c -> R a c) ->
  (forall files w, R w (addSubtitles host files false w)) ->
  stable R (checkForSubtitles host).
Proof.
  intros Rr Rt Ha. unfold checkForSubtitles. stable_steps Rr Rt.
  apply stable_modify. intros w. apply Ha.
Qed.

(** ** More on subtitles *)

Section MoreSubtitles.

Variable host : Host.

Lemma addTracks_no_select i new s :
  Subtitles.selectedIndex (addTracks host false i new s) = Subtitles.selectedIndex s.
Proof.
  revert i s. induction new as [|t new IH]; intros i s; [reflexivity|].
  rewrite addTracks_cons. destruct (stored t s); [apply IH|].
  rewrite IH. reflexivity.
Qed.

Lemma addSubtitles_no_select files w :
  Subtitles.selectedIndex (Playing.subtitles (playing (addSubtitles host files false w)))
  = Subtitles.selectedIndex (Playing.subtitles (playing w)).
Proof.
  destruct (addSubtitles_cases host files false w) as [-> | [[-> _] | [tracks [_ ->]]]].
  - reflexivity.
  - now rewrite parallel_playing.
  - simpl. apply addTracks_no_select.
Qed.

(** X1: an ingest without autoSelect, and the discovery of the subtitle
    files of the torrent when a video opens, never change which track is
    selected, whatever files they load or fail to load. *)
Theorem discovery_keeps_selection (files : list string) (w : World) :
  Subtitles.selectedIndex (Playing.subtitles (playing (addSubtitles host files false w)))
  = Subtitles.selectedIndex (Playing.subtitles (playing w)) /\
  Subtitles.selectedIndex
    (Playing.subtitles (playing (world_of (checkForSubtitles host w))))
  = Subtitles.selectedIndex (Playing.subtitles (playing w)).
Proof.
  split; [apply addSubtitles_no_select|].
  apply (stable_checkForSubtitles host
           (fun w w' => Subtitles.selectedIndex (Playing.subtitles (playing w'))
                        = Subtitles.selectedIndex (Playing.subtitles (playing w)))).
  - reflexivity.
  - intros a b c H1 H2. now rewrite H2.
  - intros fs w0. apply addSubtitles_no_select.
Qed.

Lemma addTracks_length_le autoSelect i new s :
  (List.length (Subtitles.tracks s)
   <= List.length (Subtitles.tracks (addTracks host autoSelect i new s)))%nat.
Proof.
  destruct (addTracks_extends host autoSelect i new s) as [added ->].
  rewrite length_app. lia.
Qed.

Lemma addTracks_valid autoSelect i new s :
  validSelection s -> validSelection (addTracks host autoSelect i new s).
Proof.
  revert i s. induction new as [|t new IH]; intros i s H; [exact H|].
  rewrite addTracks_cons. destruct (stored t s); [now apply IH|].
  apply IH. unfold validSelection in *.
  destruct (autoSelect && _); simpl.
  - rewrite length_app. simpl. lia.
  - destruct (Subtitles.selectedIndex s); [|exact I]. rewrite length_app. lia.
Qed.

Lemma addSubtitles_valid files autoSelect w :
  validSelection (Playing.subtitles (playing w)) ->
  validSelection (Playing.subtitles (playing (addSubtitles host files autoSelect w))).
Proof.
  intros H.
  destruct (addSubtitles_cases host files autoSelect w) as [-> | [[-> _] | [tracks [_ ->]]]].
  - exact H.
  - now rewrite parallel_playing.
  - simpl. pose proof (addTracks_valid autoSelect 0 tracks _ H) as V.
    unfold validSelection in *. simpl. now rewrite relabel_length.
Qed.

(** X2: ingest calls never leave the selection outside the track list: if
    the selected index points at a track (or there is no selection), it
    still does after any sequence of ingest calls. *)
Theorem ingest_keeps_selection_valid (calls : list (list string * bool)) (w : World) :
  validSelection (Playing.subtitles (playing w)) ->
  validSelection (Playing.subtitles (playing (ingest host calls w))).
Proof.
  revert w. induction calls as [|[files a] calls IH]; intros w H; [exact H|].
  simpl. apply IH. now apply addSubtitles_valid.
Qed.

End MoreSubtitles.

Lemma ingest_keeps_selection_valid_witness :
  validSelection
    (Playing.subtitles
       (playing (ingest exampleHost
                   [(["/subs/de.srt"], true); (["/subs/en1.srt"; "/subs/bad.srt"], true);
                    (["/subs/en2.srt"], false)] videoWorld))).
Proof.
  apply (ingest_keeps_selection_valid exampleHost
           [(["/subs/de.srt"], true); (["/subs/en1.srt"; "/subs/bad.srt"], true);
            (["/subs/en2.srt"], false)] videoWorld).
  exact I.
Defined.

(** ** Labels are distinct *)

Lemma spaceFree_append a x : spaceFree (a +:+ String " " x) = false.
Proof.
  induction a as [|c a IH]; simpl; [reflexivity|].
  rewrite IH. apply andb_false_r.
Qed.

Lemma append_space_inj a b x y :
  spaceFree a = true -> spaceFree b = true ->
  a +:+ String " " x = b +:+ String " " y -> a = b /\ x = y.
Proof.
  revert b. induction a as [|c a IH]; intros [|d b] Ha Hb E; simpl in *.
  - injection E as ->. now split.
  - injection E as <- _. discriminate Hb.
  - injection E as -> _. discriminate Ha.
  - injection E as -> E.
    apply andb_true_iff in Ha as [_ Ha]. apply andb_true_iff in Hb as [_ Hb].
    destruct (IH b Ha Hb E) as [-> ->]. now split.
Qed.

Lemma label_inj lang lang' (n n' : nat) :
  spaceFree lang = true -> spaceFree lang' = true ->
  (if (1 <? n)%nat then lang +:+ " " +:+ pretty n else lang)
  = (if (1 <? n')%nat then lang' +:+ " " +:+ pretty n' else lang') ->
  lang = lang' /\ ((1 <? n)%nat = true -> (1 <? n')%nat = true -> n = n')
  /\ (1 <? n)%nat = (1 <? n')%nat.
Proof.
  intros H H' E.
  assert (A : forall x, " " +:+ x = String " " x) by reflexivity.
  rewrite !A in E. clear A.
  destruct (1 <? n)%nat, (1 <? n')%nat.
  - apply append_space_inj in E as [-> E]; [|assumption..].
    split; [reflexivity|]. split; [|reflexivity]. intros _ _.
    now apply pretty_nat_inj in E.
  - rewrite <- E, spaceFree_append in H'. discriminate H'.
  - rewrite E, spaceFree_append in H. discriminate H.
  - subst. repeat split. intros X. discriminate X.
Qed.

Lemma occurrences_app lang l1 l2 :
  occurrences lang (l1 ++ l2) = (occurrences lang l1 + occurrences lang l2)%nat.
Proof. unfold occurrences. now rewrite List.filter_app, length_app. Qed.

(** A later track of the same language has a larger count. *)
Lemma occurrences_increase (tracks : list Track.t) i j ti tj :
  (i < j)%nat -> tracks !! i = Some ti -> tracks !! j = Some tj ->
  Track.language ti = Track.language tj ->
  (occurrences (Track.language ti) (take (S i) tracks)
   < occurrences (Track.language ti) (take (S j) tracks))%nat.
Proof.
  intros Hij Hi Hj E. rewrite (take_S_r tracks j tj Hj), occurrences_app.
  rewrite <- (take_drop (S i) (take j tracks)), take_take, occurrences_app.
  replace (S i `min` j)%nat with (S i) by lia.
  rewrite E. unfold occurrences at 4. simpl. rewrite String.eqb_refl. simpl. lia.
Qed.

(** X3: when no language name contains a space, relabelling leaves no two
    tracks with the same label. *)
Theorem relabel_labels_distinct (s : Subtitles.t) :
  Forall (fun t => spaceFree (Track.language t) = true) (Subtitles.tracks s) ->
  NoDup (map Track.label (Subtitles.tracks (relabelSubtitles s))).
Proof.
  intros Hfree. unfold relabelSubtitles. simpl.
  set (tracks := Subtitles.tracks s) in *.
  assert (L : forall i x, map Track.label (relabel ∅ tracks) !! i = Some x ->
              exists t, tracks !! i = Some t /\ spaceFree (Track.language t) = true /\
                x = (if (1 <? occurrences (Track.language t) (take (S i) tracks))%nat
                     then Track.language t +:+ " " +:+
                          pretty (occurrences (Track.language t) (take (S i) tracks))
                     else Track.language t)).
  { intros i x Hx. rewrite list_lookup_fmap in Hx.
    destruct (tracks !! i) as [t|] eqn:Ht.
    - exists t. split; [reflexivity|]. split.
      + rewrite List.Forall_forall in Hfree. apply Hfree.
        apply list_elem_of_In, list_elem_of_lookup. now exists i.
      + rewrite (relabel_lookup _ _ _ _ Ht), lookup_empty in Hx. simpl in Hx.
        now injection Hx as <-.
    - apply lookup_ge_None in Ht. rewrite <- (relabel_length ∅) in Ht.
      apply lookup_ge_None in Ht. rewrite Ht in Hx. discriminate Hx. }
  apply NoDup_alt. intros i j x Hi Hj.
  destruct (L i x Hi) as [ti [Hti [Fi Ei]]]. destruct (L j x Hj) as [tj [Htj [Fj Ej]]].
  rewrite Ei in Ej. apply label_inj in Ej as [El [En Eb]]; [|assumption..].
  pose proof (occurrences_at tracks i ti Hti) as Pi.
  pose proof (occurrences_at tracks j tj Htj) as Pj.
  destruct (Nat.lt_trichotomy i j) as [Lt | [Eq | Gt]]; [|exact Eq|]; exfalso.
  - pose proof (occurrences_increase tracks i j ti tj Lt Hti Htj El) as Inc.
    rewrite <- El in *.
    destruct (1 <? occurrences (Track.language ti) (take (S i) tracks))%nat eqn:B.
    + symmetry in Eb. specialize (En eq_refl Eb). lia.
    + symmetry in Eb. apply Nat.ltb_ge in B, Eb. lia.
  - symmetry in El.
    pose proof (occurrences_increase tracks j i tj ti Gt Htj Hti El) as Inc.
    rewrite El in *.
    destruct (1 <? occurrences (Track.language ti) (take (S i) tracks))%nat eqn:B.
    + symmetry in Eb. specialize (En eq_refl Eb). lia.
    + symmetry in Eb. apply Nat.ltb_ge in B, Eb. lia.
Qed.

Lemma relabel_labels_distinct_witness :
  NoDup (map Track.label
           (Subtitles.tracks
              (relabelSubtitles
                 (Subtitles.mk [Track.mk "" "English" "" "a"; Track.mk "" "German" "" "b";
                                Track.mk "" "English" "" "c"] None false)))).
Proof.
  apply relabel_labels_distinct. simpl. repeat constructor.
Defined.

(** A language name that ends in a space and a number can collide with a
    label. *)
Example relabel_collision :
  map Track.label
    (relabel ∅ [Track.mk "" "English" "" "a"; Track.mk "" "English" "" "b";
                Track.mk "" "English 2" "" "c"])
  = ["English"; "English 2"; "English 2"].
Proof. reflexivity. Qed.

(** ** The discovery of subtitle files *)

Section Discovery.

Variable host : Host.

Lemma discover_loop (files : list File.t) (dir : string)
    (progressFiles : list FileProgress.t) (ix : nat) (w : World) :
  (ix + List.length progressFiles <= List.length files)%nat ->
  forEach (fun ix fp =>
             if negb (FileProgress.numPieces fp =? FileProgress.numPiecesPresent fp)%nat
             then ret tt
             else
               files <- defined (Some files) ;;
               file <- defined (files !! ix) ;;
               if negb (isSubtitle host (File.name file)) then ret tt
               else
                 dir <- defined (Some dir) ;;
                 let filePath := path_join host dir (File.path file) in
                 modify (addSubtitles host [filePath] false))
          ix progressFiles w
  = Ret tt (ingest host
              (map (fun f => ([f], false))
                   (discovered host dir progressFiles (drop ix files))) w).
Proof.
  revert ix w.
  induction progressFiles as [|fp pf IH]; intros ix w Hlen; [reflexivity|].
  simpl in Hlen.
  destruct (files !! ix) as [file|] eqn:Hix;
    [|apply lookup_ge_None in Hix; lia].
  rewrite (drop_S _ _ _ Hix). unfold discovered. simpl zip. simpl omap.
  simpl forEach. simpl. 
  destruct (FileProgress.numPieces fp =? FileProgress.numPiecesPresent fp)%nat; simpl.
  - rewrite Hix. simpl. destruct (isSubtitle host (File.name file)); simpl.
    + rewrite IH by lia. reflexivity.
    + rewrite IH by lia. reflexivity.
  - rewrite IH by lia. reflexivity.
Qed.

(** X4: while a video plays and the playing torrent has progress
    information for no more files than it lists, [checkForSubtitles] is
    the sequence of single-file ingests without autoSelect, in file order,
    of exactly the files that have all their pieces and a subtitle
    extension. *)
Theorem checkForSubtitles_ingests (w : World) (ts : nat) (s : Torrent.t)
    (progressFiles : list FileProgress.t) (files : list File.t) (dir : string) :
  Playing.type (playing w) = Some Video ->
  getPlaying host (torrents w) (Playing.infoHash (playing w)) = Some ts ->
  torrents w !! ts = Some s ->
  Torrent.progress s = Some progressFiles ->
  Torrent.files s = Some files ->
  Torrent.path s = Some dir ->
  (List.length progressFiles <= List.length files)%nat ->
  checkForSubtitles host w
  = Ret tt (ingest host
              (map (fun f => ([f], false)) (discovered host dir progressFiles files)) w).
Proof.
  intros Hv Hg Hs Hpr Hf Hp Hlen.
  unfold checkForSubtitles. simpl. rewrite Hv. simpl. rewrite Hg. simpl.
  rewrite Hs, Hpr, Hf, Hp.
  apply (discover_loop files dir progressFiles 0 w). simpl. exact Hlen.
Qed.

End Discovery.

Lemma checkForSubtitles_ingests_witness :
  checkForSubtitles exampleHost discoveryWorld
  = Ret tt (ingest exampleHost [(["/downloads/Film/film.srt"], false)] discoveryWorld).
Proof.
  apply (checkForSubtitles_ingests exampleHost discoveryWorld 0%nat
           (Torrent.mk (Some 1%nat) (Some "abc") Downloading (Some "Film") (Some "/downloads")
              (Some exampleFiles)
              (Some [FileProgress.mk 4 4; FileProgress.mk 9 3; FileProgress.mk 2 0;
                     FileProgress.mk 1 1])
              None None)
           [FileProgress.mk 4 4; FileProgress.mk 9 3; FileProgress.mk 2 0; FileProgress.mk 1 1]
           exampleFiles "/downloads"); first [reflexivity | simpl; lia].
Defined.

(** ** Opening a file *)

Section Opening.

Variable host : Host.

Lemma subtitleStep_refl w : subtitleStep w w.
Proof.
  split; [reflexivity|]. split; [exists []; now rewrite app_nil_r|].
  exists []. now rewrite app_nil_r.
Qed.

Lemma subtitleStep_trans w1 w2 w3 :
  subtitleStep w1 w2 -> subtitleStep w2 w3 -> subtitleStep w1 w3.
Proof.
  intros [F1 [[e1 E1] [x1 [L1 Q1]]]] [F2 [[e2 E2] [x2 [L2 Q2]]]].
  split; [congruence|]. split.
  - exists (e1 ++ e2). now rewrite E2, E1, app_assoc.
  - exists (x1 ++ x2). split; [now rewrite L2, L1, app_assoc|].
    rewrite forallb_app, Q1, Q2. reflexivity.
Qed.

Lemma subtitleStep_onError message w : subtitleStep w (onError message w).
Proof.
  split; [reflexivity|]. split; [exists [message]; reflexivity|].
  exists [ESound ERROR; EUpdate]. split; [|reflexivity].
  unfold onError. simpl. now rewrite <- app_assoc.
Qed.

Lemma subtitleStep_iter_onError n message w :
  subtitleStep w (Nat.iter n (onError message) w).
Proof.
  induction n as [|n IH]; [apply subtitleStep_refl|].
  simpl. eapply subtitleStep_trans; [exact IH | apply subtitleStep_onError].
Qed.

Lemma subtitleStep_set_subtitles s w :
  subtitleStep w (set_playing (Playing.set_subtitles s (playing w)) w).
Proof.
  split; [reflexivity|]. split; exists []; simpl; now rewrite app_nil_r.
Qed.

Lemma subtitleStep_addSubtitles files autoSelect w :
  subtitleStep w (addSubtitles host files autoSelect w).
Proof.
  destruct (addSubtitles_cases host files autoSelect w) as [-> | [[-> _] | [tracks [_ ->]]]].
  - apply subtitleStep_refl.
  - destruct (parallel_loads host files w) as [-> _]. apply subtitleStep_iter_onError.
  - destruct (parallel_loads host files w) as [-> _].
    eapply subtitleStep_trans; [apply subtitleStep_iter_onError|].
    rewrite <- (iter_onError_playing (List.length (failed host files))
                  "Error parsing subtitles file." w) at 2.
    apply subtitleStep_set_subtitles.
Qed.

Lemma subtitleStep_checkForSubtitles w :
  subtitleStep w (world_of (checkForSubtitles host w)).
Proof.
  apply (stable_checkForSubtitles host subtitleStep).
  - apply subtitleStep_refl.
  - apply subtitleStep_trans.
  - intros files w0. apply subtitleStep_addSubtitles.
Qed.

(** X5: an ingest, and the discovery of subtitle files, change nothing but
    the subtitle state, the error queue and the log; what they add to the
    log are error sounds and redraws, and the errors queued before stay in
    place. *)
Theorem addSubtitles_frame (files : list string) (autoSelect : bool) (w : World) :
  subtitleStep w (addSubtitles host files autoSelect w) /\
  subtitleStep w (world_of (checkForSubtitles host w)).
Proof.
  split; [apply subtitleStep_addSubtitles | apply subtitleStep_checkForSubtitles].
Qed.

(** What [openPlayerFromActiveTorrent] does for a file the summary lists. *)
Lemma openPlayerFromActiveTorrent_run ts index w s files f :
  torrents w !! ts = Some s -> Torrent.files s = Some files -> files !! index = Some f ->
  openPlayerFromActiveTorrent host ts index w
  = match checkForSubtitles host (prepared host s index f w) with
    | Ret _ w' =>
        Ret tt (set_listener (Some (OnServerReady ts))
                  (emit (EIpc (WtStartServer (Torrent.infoHash s) index)) w'))
    | Throw w' => Throw w'
    end.
Proof.
  intros Hs Hf Hi. unfold openPlayerFromActiveTorrent, deref. simpl.
  rewrite Hs. simpl. rewrite Hf. simpl. rewrite Hi. simpl.
  unfold prepared, resumes, wantsAudioInfo, mediaTypeOf.
  destruct (File.currentTime f) as [c|], (File.duration f) as [d|]; simpl;
    try destruct (negb (c === 0)%js && resumable c d); simpl;
    destruct (isVideo host f); simpl;
    try destruct (isAudio host f); simpl;
    try destruct (File.audioInfo f); simpl;
    reflexivity.
Qed.

Lemma prepared_log s index f w :
  log (prepared host s index f w)
  = log w ++ (if wantsAudioInfo host f
              then [EIpc (WtGetAudioMetadata (Torrent.infoHash s) index)] else []).
Proof.
  unfold prepared. destruct (wantsAudioInfo host f); simpl; [reflexivity|].
  now rewrite app_nil_r.
Qed.

Lemma prepared_frame s index f w :
  torrents (prepared host s index f w) = torrents w /\
  timer (prepared host s index f w) = timer w /\
  listener (prepared host s index f w) = listener w /\
  errors (prepared host s index f w) = errors w /\
  Playing.subtitles (playing (prepared host s index f w)) = Playing.subtitles (playing w).
Proof.
  unfold prepared. destruct (wantsAudioInfo host f), (resumes f); repeat split.
Qed.

(** What a subtitle step keeps of the playing state. *)
Lemma subtitleStep_playing w w' :
  subtitleStep w w' ->
  Playing.set_subtitles (Playing.subtitles (playing w)) (playing w') = playing w.
Proof.
  intros [F _]. apply (f_equal playing) in F. simpl in F.
  destruct (playing w) as [a b c d e f0 g h i], (playing w') as [a' b' c' d' e' f' g' h' i'].
  simpl in *. injection F as -> -> -> -> -> -> -> ->. reflexivity.
Qed.

Lemma subtitleStep_frame w w' :
  subtitleStep w w' ->
  torrents w' = torrents w /\ timer w' = timer w /\ listener w' = listener w /\
  nextTorrentKey w' = nextTorrentKey w /\ windowTitle w' = windowTitle w /\
  isFocused w' = isFocused w /\ badge w' = badge w.
Proof.
  intros [F _].
  repeat split;
    [apply (f_equal torrents) in F | apply (f_equal timer) in F
    | apply (f_equal listener) in F | apply (f_equal nextTorrentKey) in F
    | apply (f_equal windowTitle) in F | apply (f_equal isFocused) in F
    | apply (f_equal badge) in F]; exact F.
Qed.


(** The effects of opening a listed file, and the state it leaves when it
    returns. *)
Lemma openPlayerFromActiveTorrent_outcome ts index w s files f :
  torrents w !! ts = Some s -> Torrent.files s = Some files -> files !! index = Some f ->
  exists noise,
    forallb subtitleNoise noise = true /\
    match openPlayerFromActiveTorrent host ts index w with
    | Ret _ w' =>
        log w' = log w
                 ++ (if wantsAudioInfo host f
                     then [EIpc (WtGetAudioMetadata (Torrent.infoHash s) index)] else [])
                 ++ noise ++ [EIpc (WtStartServer (Torrent.infoHash s) index)] /\
        listener w' = Some (OnServerReady ts) /\
        timer w' = timer w /\ torrents w' = torrents w /\
        Playing.infoHash (playing w') = Torrent.infoHash s /\
        Playing.fileIndex (playing w') = Some index /\
        Playing.type (playing w') = Some (mediaTypeOf host f)
    | Throw w' =>
        log w' = log w
                 ++ (if wantsAudioInfo host f
                     then [EIpc (WtGetAudioMetadata (Torrent.infoHash s) index)] else [])
                 ++ noise /\
        listener w' = listener w /\ timer w' = timer w /\ torrents w' = torrents w
    end.
Proof.
  intros Hs Hf Hi. rewrite (openPlayerFromActiveTorrent_run _ _ _ _ _ _ Hs Hf Hi).
  pose proof (subtitleStep_checkForSubtitles (prepared host s index f w)) as St.
  pose proof (subtitleStep_frame _ _ St) as [T [Ti [L _]]].
  pose proof (subtitleStep_playing _ _ St) as P.
  destruct St as [_ [_ [noise [E Q]]]]. exists noise. split; [exact Q|].
  destruct (prepared_frame s index f w) as [T0 [Ti0 [L0 _]]].
  rewrite prepared_log in E.
  assert (PI : Playing.infoHash (playing (prepared host s index f w)) = Torrent.infoHash s
               /\ Playing.fileIndex (playing (prepared host s index f w)) = Some index
               /\ Playing.type (playing (prepared host s index f w))
                  = Some (mediaTypeOf host f)).
  { unfold prepared. destruct (wantsAudioInfo host f), (resumes f); repeat split. }
  destruct PI as [P1 [P2 P3]].
  destruct (checkForSubtitles host (prepared host s index f w)) as [[] w1 | w1]; simpl in *.
  - rewrite E, <- !app_assoc. split; [reflexivity|]. split; [reflexivity|].
    split; [congruence|]. split; [congruence|].
    rewrite <- P1, <- P2, <- P3, <- P.
    destruct (playing w1). repeat split.
  - rewrite E, <- !app_assoc. repeat split; congruence.
Qed.



(** X8: once audio metadata has been stored for a file, opening that file
    never asks for it again, whether the opening returns or throws. *)
Theorem audio_metadata_asked_once (id : TorrentId) (index ts : nat) (w w1 : World)
    (s : Torrent.t) :
  getTorrentSummary host id w = Some (ts, s) ->
  torrentAudioMetadata host id index true w = Ret tt w1 ->
  exists extra,
    log (world_of (openPlayerFromActiveTorrent host ts index w1)) = log w1 ++ extra /\
    forall h i, ~ In (EIpc (WtGetAudioMetadata h i)) extra.
Proof.
  intros Hfound Hr. pose proof (getTorrentSummary_Some _ _ _ _ _ Hfound) as Hs.
  unfold torrentAudioMetadata in Hr. simpl in Hr. rewrite Hfound in Hr. simpl in Hr.
  destruct (Torrent.files s) as [files|] eqn:Hf; [|discriminate Hr]. simpl in Hr.
  destruct (files !! index) as [f|] eqn:Hi; [|discriminate Hr]. simpl in Hr.
  injection Hr as <-.
  set (s1 := set_files (alter (set_audioInfo true) index <$> Torrent.files s) s).
  assert (Hs1 : torrents (emit EUpdate (update_torrent ts
                   (fun s => set_files (alter (set_audioInfo true) index <$> Torrent.files s) s)
                   w)) !! ts = Some s1).
  { simpl. now rewrite list_lookup_alter_eq, Hs. }
  assert (Hf1 : Torrent.files s1 = Some (alter (set_audioInfo true) index files)).
  { unfold s1. simpl. now rewrite Hf. }
  assert (Hi1 : alter (set_audioInfo true) index files !! index = Some (set_audioInfo true f)).
  { now rewrite list_lookup_alter_eq, Hi. }
  destruct (openPlayerFromActiveTorrent_outcome ts index _ s1 _ _ Hs1 Hf1 Hi1)
    as [noise [Q O]].
  assert (W : wantsAudioInfo host (set_audioInfo true f) = false).
  { unfold wantsAudioInfo. simpl. apply andb_false_r. }
  rewrite W in O. simpl in O.
  assert (N : forall h i, ~ In (EIpc (WtGetAudioMetadata h i)) noise).
  { intros h i Hin. rewrite forallb_forall in Q. specialize (Q _ Hin). discriminate Q. }
  destruct (openPlayerFromActiveTorrent host ts index _) as [[] w2 | w2];
    destruct O as [E _]; unfold world_of.
  - exists (noise ++ [EIpc (WtStartServer (Torrent.infoHash s1) index)]).
    split; [exact E|].
    intros h i Hin. apply in_app_or in Hin as [Hin | [Hin | []]];
      [exact (N h i Hin) | discriminate Hin].
  - exists noise. split; [exact E | exact N].
Qed.

End Opening.



Example open_file_example :
  log (world_of (openPlayerFromActiveTorrent exampleHost 0 0 albumWorld))
  = [EIpc (WtGetAudioMetadata (Some "def") 0); EIpc (WtStartServer (Some "def") 0)] /\
  Playing.type (playing (world_of (openPlayerFromActiveTorrent exampleHost 0 0 albumWorld)))
  = Some Audio.
Proof. split; reflexivity. Qed.

Lemma audio_metadata_asked_once_witness :
  log (world_of (openPlayerFromActiveTorrent exampleHost 0 0
                   (world_of (torrentAudioMetadata exampleHost (ByKey 7) 0 true albumWorld))))
  = [EUpdate; EIpc (WtStartServer (Some "def") 0)].
Proof.
  destruct (audio_metadata_asked_once exampleHost (ByKey 7) 0 0 albumWorld
              (world_of (torrentAudioMetadata exampleHost (ByKey 7) 0 true albumWorld))
              albumTorrent eq_refl eq_refl) as [extra [E _]].
  reflexivity.
Defined.

(** ** More on sessions *)

Section MoreSessions.

Variable host : Host.

(** Once the timer cannot fire and no listener is registered, no event has
    any effect. *)
Lemma deliver_over w e :
  (forall ts, timer w <> Armed ts) -> listener w = None -> deliver host w e = w.
Proof.
  intros T L. unfold deliver, handle. rewrite L.
  destruct e, (timer w) as [| ts | |]; try reflexivity. now elim (T ts).
Qed.



(** The world in which [openPlayer] turns to the torrent: the sound played,
    the play status set, the timer armed. *)
Lemma openPlayer_unfold id index w ts s :
  getTorrentSummary host id w = Some (ts, s) ->
  openPlayer host id (Some index) w
  = let wa := set_timer (Armed ts)
                (emit EUpdate
                   (update_torrent ts (Torrent.set_playStatus (Some Requested))
                      (emit (ESound PLAY) w))) in
    if bool_decide (Torrent.status s = Paused)
    then (startTorrentingSummary ts ;;
          modify (set_listener (Some (OnEngineReady ts index)))) wa
    else openPlayerFromActiveTorrent host ts index wa.
Proof.
  intros Hfound. unfold openPlayer. simpl. rewrite Hfound. simpl.
  destruct (bool_decide (Torrent.status s = Paused)); reflexivity.
Qed.


Lemma alter_as_insert {A} (f : A -> A) (l : list A) i x :
  l !! i = Some x -> alter f i l = <[i := f x]> l.
Proof.
  intros H. assert (Hlt : (i < List.length l)%nat) by (apply lookup_lt_is_Some; eauto).
  apply list_eq. intros j. destruct (decide (j = i)) as [-> | N].
  - rewrite list_lookup_alter_eq, H, list_lookup_insert_eq by exact Hlt. reflexivity.
  - rewrite list_lookup_alter_ne, list_lookup_insert_ne by congruence. reflexivity.
Qed.

Lemma update_torrent_insert ts f w s :
  torrents w !! ts = Some s ->
  update_torrent ts f w = set_torrents (<[ts := f s]> (torrents w)) w.
Proof. intros H. unfold update_torrent. now rewrite (alter_as_insert f _ _ _ H). Qed.

(** [startTorrentingSummary] on a summary of the list: the summary gets the
    next key if it has none and the download path if it has no path, and
    is sent to the engine as it then is. *)
Lemma startTorrentingSummary_run ts w s :
  torrents w !! ts = Some s ->
  exists s' k,
    startTorrentingSummary ts w
    = Ret tt (emit (EIpc (WtStartTorrenting s'))
                (set_nextTorrentKey k (set_torrents (<[ts := s']> (torrents w)) w))) /\
    Torrent.playStatus s' = Torrent.playStatus s /\
    Torrent.status s' = Torrent.status s /\
    Torrent.files s' = Torrent.files s /\
    Torrent.infoHash s' = Torrent.infoHash s /\
    Torrent.torrentKey s'
    = (if falsyKey (Torrent.torrentKey s) then Some (nextTorrentKey w)
       else Torrent.torrentKey s) /\
    Torrent.path s'
    = (if falsyString (Torrent.path s) then Some (downloadPath w) else Torrent.path s) /\
    k = (if falsyKey (Torrent.torrentKey s) then S (nextTorrentKey w)
         else nextTorrentKey w).
Proof.
  intros Hs. assert (Hlt : (ts < List.length (torrents w))%nat)
    by (apply lookup_lt_is_Some; eauto).
  unfold startTorrentingSummary, deref. simpl. rewrite Hs. simpl.
  destruct (falsyKey (Torrent.torrentKey s)) eqn:K,
           (falsyString (Torrent.path s)) eqn:P; simpl;
    rewrite ?list_lookup_alter_eq, ?Hs; simpl.
  - exists (Torrent.set_path (Some (downloadPath w))
              (Torrent.set_torrentKey (Some (nextTorrentKey w)) s)), (S (nextTorrentKey w)).
    split; [|repeat split].
    rewrite (update_torrent_insert ts _ (set_nextTorrentKey _ w) s Hs).
    rewrite (update_torrent_insert ts _ _ (Torrent.set_torrentKey (Some (nextTorrentKey w)) s))
      by (simpl; now rewrite list_lookup_insert_eq).
    simpl. rewrite list_insert_insert_eq. reflexivity.
  - exists (Torrent.set_torrentKey (Some (nextTorrentKey w)) s), (S (nextTorrentKey w)).
    split; [|repeat split].
    rewrite (update_torrent_insert ts _ (set_nextTorrentKey _ w) s Hs). reflexivity.
  - exists (Torrent.set_path (Some (downloadPath w)) s), (nextTorrentKey w).
    split; [|repeat split].
    rewrite (update_torrent_insert ts _ w s Hs). reflexivity.
  - exists s, (nextTorrentKey w). split; [|repeat split].
    rewrite (list_insert_id _ _ _ Hs). now destruct w.
Qed.

(** Opening a paused item: the engine is told to start the torrent, and
    the session waits for the engine. *)
Lemma openPlayer_paused id index ts w s :
  getTorrentSummary host id w = Some (ts, s) -> Torrent.status s = Paused ->
  exists w1 s',
    openPlayer host id (Some index) w = Ret tt w1 /\
    torrents w1 !! ts = Some s' /\
    log w1 = log w ++ [ESound PLAY; EUpdate; EIpc (WtStartTorrenting s')] /\
    listener w1 = Some (OnEngineReady ts index) /\
    timer w1 = Armed ts /\
    Torrent.playStatus s' = Some Requested /\
    Torrent.status s' = Paused.
Proof.
  intros Hfound Hst. pose proof (getTorrentSummary_Some _ _ _ _ _ Hfound) as Hs.
  rewrite (openPlayer_unfold _ _ _ _ _ Hfound). cbv zeta.
  set (wa := set_timer _ _).
  assert (Hsa : torrents wa !! ts = Some (Torrent.set_playStatus (Some Requested) s)).
  { unfold wa. simpl. now rewrite list_lookup_alter_eq, Hs. }
  assert (Hlt : (ts < List.length (torrents wa))%nat) by (apply lookup_lt_is_Some; eauto).
  rewrite bool_decide_eq_true_2 by exact Hst.
  destruct (startTorrentingSummary_run ts wa _ Hsa) as [s' [k [E [Ps [Ss _]]]]].
  simpl. rewrite E. simpl. eexists _, s'. split; [reflexivity|]. simpl.
  split; [now rewrite list_lookup_insert_eq|]. split; [now rewrite <- !app_assoc|].
  repeat split; [exact Ps|]. rewrite Ss. exact Hst.
Qed.

(** X10: opening a paused item tells the engine to start the torrent and
    waits for the engine: the content server is not asked for yet.
    Opening an item that is not paused never tells the engine to start the
    torrent. *)
Theorem paused_item_is_started_first (id : TorrentId) (index ts : nat) (w : World)
    (s : Torrent.t) :
  getTorrentSummary host id w = Some (ts, s) ->
  (Torrent.status s = Paused ->
   exists w1 s',
     openPlayer host id (Some index) w = Ret tt w1 /\
     torrents w1 !! ts = Some s' /\
     log w1 = log w ++ [ESound PLAY; EUpdate; EIpc (WtStartTorrenting s')] /\
     listener w1 = Some (OnEngineReady ts index) /\
     timer w1 = Armed ts /\
     Torrent.playStatus s' = Some Requested) /\
  (Torrent.status s <> Paused ->
   exists new,
     log (world_of (openPlayer host id (Some index) w)) = log w ++ new /\
     forall s', ~ In (EIpc (WtStartTorrenting s')) new).
Proof.
  intros Hfound. pose proof (getTorrentSummary_Some _ _ _ _ _ Hfound) as Hs.
  rewrite (openPlayer_unfold _ _ _ _ _ Hfound). cbv zeta.
  set (wa := set_timer _ _).
  assert (Hsa : torrents wa !! ts = Some (Torrent.set_playStatus (Some Requested) s)).
  { unfold wa. simpl. now rewrite list_lookup_alter_eq, Hs. }
  assert (Hlt : (ts < List.length (torrents wa))%nat) by (apply lookup_lt_is_Some; eauto).
  split; intros Hst.
  - destruct (openPlayer_paused id index ts w s Hfound Hst)
      as [w1 [s' [R [T [L [Li [Ti [P _]]]]]]]].
    rewrite (openPlayer_unfold _ _ _ _ _ Hfound) in R. exists w1, s'. repeat split; assumption.
  - rewrite bool_decide_eq_false_2 by exact Hst.
    destruct (Torrent.files s) as [files|] eqn:Hf.
    + destruct (files !! index) as [f|] eqn:Hi.
      * destruct (openPlayerFromActiveTorrent_outcome host ts index wa _ files f Hsa Hf Hi)
          as [noise [Q O]].
        assert (N : forall s', ~ In (EIpc (WtStartTorrenting s')) noise).
        { intros s' Hin. rewrite forallb_forall in Q. specialize (Q _ Hin). discriminate Q. }
        assert (La : log wa = log w ++ [ESound PLAY; EUpdate])
          by (unfold wa; simpl; now rewrite <- app_assoc).
        destruct (openPlayerFromActiveTorrent host ts index wa) as [[] w1 | w1];
          destruct O as [E _]; unfold world_of; rewrite E, La, <- !app_assoc;
          eexists; (split; [reflexivity|]);
          intros s' Hin; rewrite !in_app_iff in Hin;
          destruct (wantsAudioInfo host f); simpl in Hin;
          intuition (try discriminate; try (eapply N; eassumption)).
      * exists [ESound PLAY; EUpdate]. split.
        -- unfold openPlayerFromActiveTorrent, deref. simpl.
           rewrite list_lookup_alter_eq, Hs. simpl. rewrite Hf. simpl. rewrite Hi. simpl.
           now rewrite <- app_assoc.
        -- intros s' [H | [H | []]]; discriminate H.
    + exists [ESound PLAY; EUpdate]. split.
      * unfold openPlayerFromActiveTorrent, deref. simpl.
        rewrite list_lookup_alter_eq, Hs. simpl. rewrite Hf. simpl.
        now rewrite <- app_assoc.
      * intros s' [H | [H | []]]; discriminate H.
Qed.

(** The server-ready event in time: the session is over, the continuation
    called without error or, when the handler throws, not at all. *)
Lemma deliver_serverReady_pending ts base w :
  pending ts base w -> listener w = Some (OnServerReady ts) ->
  settled base (deliver host w EvServerReady).
Proof.
  intros [T [P [_ [new [E [C _]]]]]] L.
  unfold deliver, handle. rewrite L.
  unfold onServerReady, clearTimeout, deref. simpl. rewrite T. simpl.
  unfold playStatusOf in P. destruct (torrents w !! ts) as [s|]; [|discriminate P].
  simpl in *. rewrite P. simpl.
  destruct (Torrent.files s) as [files|]; simpl;
    [destruct (Playing.fileIndex (playing w)) as [i|]; simpl;
     [destruct (files !! i) as [file|]; simpl|]|];
    (split; [intros ts'; discriminate|]); (split; [reflexivity|]).
  - exists (new ++ [EUpdate; EIpc OnPlayerOpen; ECallback None]). split.
    + simpl. now rewrite E, <- !app_assoc.
    + right; left. rewrite callbacks_app, C. reflexivity.
  - exists new. split; [exact E | now left].
  - exists new. split; [exact E | now left].
  - exists new. split; [exact E | now left].
Qed.

Lemma discarded_settled ts base w : discarded ts base w -> settled base w.
Proof.
  intros [T [_ [L [[new [E [C _]]] _]]]].
  split; [intros ts'; rewrite T; discriminate|]. split; [exact L|].
  exists new. split; [exact E | right; now right].
Qed.

Lemma run_phases ts base events w :
  pending ts base w \/ timedOut ts base w \/ settled base w ->
  pending ts base (run host events w) \/ timedOut ts base (run host events w)
  \/ settled base (run host events w).
Proof.
  revert w. induction events as [|e events IH]; intros w H; [exact H|].
  simpl. apply IH. destruct H as [H | [H | H]].
  - destruct e.
    + right; left. now apply deliver_timeout_pending.
    + left. now apply deliver_engineReady_pending.
    + destruct (decide (listener w = Some (OnServerReady ts))) as [L | L].
      * right; right. now apply (deliver_serverReady_pending ts).
      * left. rewrite (deliver_serverReady_unregistered host ts); [exact H | | exact L].
        now destruct H as [_ [_ [L' _]]].
  - destruct e.
    + right; left. rewrite deliver_timeout_unarmed; [exact H|].
      destruct H as [T _]. intros ts'. rewrite T. discriminate.
    + right; left. now apply deliver_engineReady_timedOut.
    + destruct (decide (listener w = Some (OnServerReady ts))) as [L | L].
      * right; right. apply (discarded_settled ts).
        now apply deliver_serverReady_timedOut.
      * right; left.
        rewrite (deliver_serverReady_unregistered host ts); [exact H | | exact L].
        now destruct H as [_ [_ [L' _]]].
  - right; right. destruct H as [T [L N]]. rewrite deliver_over; [|exact T | exact L].
    now split.
Qed.

(** X11: in a session opened while no listener of an earlier session is
    registered, whatever events arrive in whatever order, the continuation
    is called at most once: with the timeout error, or without error, or
    not at all. *)
Theorem continuation_called_at_most_once (id : TorrentId) (index ts : nat)
    (w0 : World) (s : Torrent.t) (events : list Event) :
  getTorrentSummary host id w0 = Some (ts, s) ->
  listener w0 = None ->
  let w1 := world_of (openPlayer host id (Some index) w0) in
  exists new,
    log (run host events w1) = log w0 ++ new /\
    (callbacks new = [] \/ callbacks new = [ECallback None]
     \/ callbacks new = [ECallback (Some PlaybackTimedOut)]).
Proof.
  intros Hfound L w1.
  pose proof (openPlayer_pending host id index w0 ts s Hfound L) as P. fold w1 in P.
  destruct (run_phases ts (log w0) events w1 (or_introl P))
    as [[_ [_ [_ [new [E [C _]]]]]] | [[_ [_ [_ [new [E [C _]]]]]] | [_ [_ [new [E C]]]]]].
  - exists new. split; [exact E | now left].
  - exists new. split; [exact E | right; now right].
  - exists new. split; [exact E | exact C].
Qed.

End MoreSessions.




Lemma paused_item_is_started_first_witness :
  exists w1 s',
    openPlayer exampleHost (ByHash "abc") (Some 1%nat) pausedWorld = Ret tt w1 /\
    torrents w1 !! 0%nat = Some s' /\
    log w1 = log pausedWorld ++ [ESound PLAY; EUpdate; EIpc (WtStartTorrenting s')] /\
    listener w1 = Some (OnEngineReady 0 1) /\
    timer w1 = Armed 0 /\
    Torrent.playStatus s' = Some Requested.
Proof.
  apply (proj1 (paused_item_is_started_first exampleHost (ByHash "abc") 1%nat 0%nat
                  pausedWorld pausedTorrent eq_refl)).
  reflexivity.
Defined.

Lemma continuation_called_at_most_once_witness :
  exists new,
    log (run exampleHost [EvTimeout; EvServerReady; EvServerReady; EvTimeout]
           (world_of (openPlayer exampleHost (ByHash "abc") (Some 1%nat) torrentWorld)))
    = log torrentWorld ++ new /\
    (callbacks new = [] \/ callbacks new = [ECallback None]
     \/ callbacks new = [ECallback (Some PlaybackTimedOut)]).
Proof.
  apply (continuation_called_at_most_once exampleHost (ByHash "abc") 1%nat 0%nat
           torrentWorld exampleTorrent
           [EvTimeout; EvServerReady; EvServerReady; EvTimeout]).
  - reflexivity.
  - reflexivity.
Defined.

(** ** Starting the torrents of the list *)

Section Resuming.

Lemma keyOf_falsy s : falsyKey (Torrent.torrentKey s) = true <-> keyOf s = None.
Proof.
  unfold keyOf. destruct (Torrent.torrentKey s) as [[|k]|]; simpl; split;
    intros H; try reflexivity; discriminate H.
Qed.

Lemma keyOf_positive s k : keyOf s = Some k -> (0 < k)%nat.
Proof.
  unfold keyOf. destruct (Torrent.torrentKey s) as [[|n]|]; simpl; intros H;
    try discriminate H. injection H as <-. lia.
Qed.

(** One start keeps the keys fresh: an item with a key keeps it, an item
    without one gets the next key. *)
Lemma keysFresh_step (l : list Torrent.t) ts s s' next :
  l !! ts = Some s -> keysFresh next l ->
  keyOf s' = match keyOf s with None => Some next | Some k => Some k end ->
  keysFresh (match keyOf s with None => S next | Some _ => next end) (<[ts := s']> l).
Proof.
  intros Hs [Hpos [Hlt Hinj]] Hk.
  assert (Hts : (ts < List.length l)%nat) by (apply lookup_lt_is_Some; eauto).
  assert (Hle : (next <= match keyOf s with None => S next | Some _ => next end)%nat)
    by (destruct (keyOf s); lia).
  split; [lia|]. split.
  - intros i t k Hi Ht. destruct (decide (i = ts)) as [-> | Hne].
    + rewrite list_lookup_insert_eq in Hi by exact Hts. injection Hi as <-.
      rewrite Hk in Ht. destruct (keyOf s) as [k0|] eqn:Ks.
      * injection Ht as <-. exact (Hlt _ _ _ Hs Ks).
      * injection Ht as <-. lia.
    + rewrite list_lookup_insert_ne in Hi by congruence.
      specialize (Hlt _ _ _ Hi Ht). lia.
  - intros i j t u k Hi Hj Ht Hu.
    destruct (decide (i = ts)) as [-> | Hi'], (decide (j = ts)) as [-> | Hj'];
      [reflexivity | | |].
    + rewrite list_lookup_insert_eq in Hi by exact Hts. injection Hi as <-.
      rewrite list_lookup_insert_ne in Hj by congruence.
      rewrite Hk in Ht. destruct (keyOf s) as [k0|] eqn:Ks.
      * injection Ht as <-. exact (Hinj _ _ _ _ _ Hs Hj Ks Hu).
      * injection Ht as <-. specialize (Hlt _ _ _ Hj Hu). lia.
    + rewrite list_lookup_insert_eq in Hj by exact Hts. injection Hj as <-.
      rewrite list_lookup_insert_ne in Hi by congruence.
      rewrite Hk in Hu. destruct (keyOf s) as [k0|] eqn:Ks.
      * injection Hu as <-. exact (Hinj _ _ _ _ _ Hi Hs Ht Ks).
      * injection Hu as <-. specialize (Hlt _ _ _ Hi Ht). lia.
    + rewrite list_lookup_insert_ne in Hi by congruence.
      rewrite list_lookup_insert_ne in Hj by congruence.
      exact (Hinj _ _ _ _ _ Hi Hj Ht Hu).
Qed.

Lemma startMessages_cons_active s l :
  active s = true ->
  startMessages (s :: l) = EIpc (WtStartTorrenting s) :: startMessages l.
Proof. intros H. unfold startMessages. simpl. now rewrite H. Qed.

Lemma startMessages_cons_paused s l :
  active s = false -> startMessages (s :: l) = startMessages l.
Proof. intros H. unfold startMessages. simpl. now rewrite H. Qed.

(** The loop of [resumeTorrents] from the item after [pre] on. *)
Lemma resume_loop (rest : list Torrent.t) :
  forall (pre : list Torrent.t) (n : nat) (w : World),
    torrents w = pre ++ rest ->
    exists rest' k,
      forEach (fun _ p => startTorrentingSummary (fst p)) n
              (List.filter (fun p => active (snd p))
                           (enumerateFrom (List.length pre) rest)) w
      = Ret tt (set_log (log w ++ startMessages rest')
                  (set_nextTorrentKey k (set_torrents (pre ++ rest') w))) /\
      Forall2 (fun s s' => Torrent.status s' = Torrent.status s /\
                           Torrent.files s' = Torrent.files s /\
                           Torrent.infoHash s' = Torrent.infoHash s /\
                           (active s = false -> s' = s)) rest rest' /\
      (keysFresh (nextTorrentKey w) (pre ++ rest) ->
       keysFresh k (pre ++ rest') /\
       Forall (fun s' => active s' = true -> keyOf s' <> None) rest').
Proof.
  induction rest as [|s rest IH]; intros pre n w E.
  - exists [], (nextTorrentKey w). simpl. split.
    + unfold startMessages. simpl. rewrite app_nil_r, <- E. now destruct w.
    + split; [constructor|]. intros K. split; [exact K | constructor].
  - simpl. destruct (active s) eqn:A.
    + simpl.
      assert (Hs : torrents w !! List.length pre = Some s)
        by (rewrite E; apply list_lookup_middle; reflexivity).
      destruct (startTorrentingSummary_run _ _ _ Hs)
        as [s' [k [R [_ [St [Fi [Ih [Ke [_ Kk]]]]]]]]].
      rewrite R.
      assert (L : <[List.length pre := s']> (torrents w) = (pre ++ [s']) ++ rest).
      { rewrite E, insert_app_r_alt by lia. rewrite Nat.sub_diag. simpl.
        now rewrite <- app_assoc. }
      set (w1 := emit _ _) in *.
      assert (E1 : torrents w1 = (pre ++ [s']) ++ rest) by exact L.
      destruct (IH (pre ++ [s']) (S n) w1 E1) as [rest' [k' [R' [F' K']]]].
      replace (List.length (pre ++ [s'])) with (S (List.length pre)) in R'
        by (rewrite length_app; simpl; lia).
      rewrite R'. exists (s' :: rest'), k'. split; [|split].
      * assert (A' : active s' = true) by (unfold active in *; now rewrite St).
        rewrite (startMessages_cons_active _ _ A'). unfold w1. simpl.
        rewrite <- !app_assoc. reflexivity.
      * constructor; [|exact F']. repeat split; try assumption.
        intros A0. rewrite A0 in A. discriminate A.
      * intros K. rewrite <- E in K.
        assert (Ks : keyOf s' = match keyOf s with None => Some (nextTorrentKey w)
                                              | Some k0 => Some k0 end).
        { unfold keyOf at 1. rewrite Ke. destruct K as [Pos _].
          destruct (falsyKey (Torrent.torrentKey s)) eqn:Fk.
          - apply keyOf_falsy in Fk. rewrite Fk. simpl.
            destruct (nextTorrentKey w); [lia | reflexivity].
          - rewrite Fk. unfold keyOf. rewrite Fk.
            destruct (Torrent.torrentKey s); [reflexivity | discriminate Fk]. }
        pose proof (keysFresh_step _ _ _ _ _ Hs K Ks) as K1.
        rewrite L in K1.
        assert (Kn : nextTorrentKey w1
                     = match keyOf s with None => S (nextTorrentKey w)
                                     | Some _ => nextTorrentKey w end).
        { unfold w1. simpl. rewrite Kk.
          destruct (falsyKey (Torrent.torrentKey s)) eqn:Fk.
          - apply keyOf_falsy in Fk. now rewrite Fk.
          - destruct (keyOf s) eqn:Ko; [reflexivity|].
            apply keyOf_falsy in Ko. congruence. }
        rewrite <- Kn in K1. destruct (K' K1) as [K2 F2].
        rewrite <- app_assoc in K2. split; [exact K2|].
        constructor; [|exact F2]. intros _. rewrite Ks. now destruct (keyOf s).
    + destruct (IH (pre ++ [s]) n w) as [rest' [k' [R' [F' K']]]];
        [now rewrite <- app_assoc|].
      replace (List.length (pre ++ [s])) with (S (List.length pre)) in R'
        by (rewrite length_app; simpl; lia).
      rewrite R'. exists (s :: rest'), k'. split; [|split].
      * rewrite (startMessages_cons_paused _ _ A). now rewrite <- app_assoc.
      * constructor; [|exact F']. repeat split.
      * intros K. rewrite <- !app_assoc in K'. destruct (K' K) as [K2 F2].
        split; [exact K2|]. constructor; [|exact F2]. intros A0. congruence.
Qed.

(** X12: [resumeTorrents] never throws.  It sends one start message for
    each item that is not paused, in list order, the message carrying the
    item as the list holds it afterwards, and nothing else.  No item changes
    its status, file list or info hash, a paused item does not change at
    all, and outside the list only the next key changes. *)
Theorem resumeTorrents_starts_active (w : World) :
  exists l' k,
    resumeTorrents w
    = Ret tt (set_log (log w ++ startMessages l')
                (set_nextTorrentKey k (set_torrents l' w))) /\
    Forall2 (fun s s' => Torrent.status s' = Torrent.status s /\
                         Torrent.files s' = Torrent.files s /\
                         Torrent.infoHash s' = Torrent.infoHash s /\
                         (active s = false -> s' = s)) (torrents w) l'.
Proof.
  destruct (resume_loop (torrents w) [] 0%nat w eq_refl) as [l' [k [R [F _]]]].
  exists l', k. split; [|exact F]. exact R.
Qed.

(** X13: when the keys are fresh (the next key is not 0 and above every
    key in use, no key is used twice), they are fresh after
    [resumeTorrents], and every item that is not paused has a key. *)
Theorem resumeTorrents_keys_fresh (w : World) :
  keysFresh (nextTorrentKey w) (torrents w) ->
  let w' := world_of (resumeTorrents w) in
  keysFresh (nextTorrentKey w') (torrents w') /\
  Forall (fun s' => active s' = true -> keyOf s' <> None) (torrents w').
Proof.
  intros K.
  destruct (resume_loop (torrents w) [] 0%nat w eq_refl) as [l' [k [R [_ K']]]].
  change (resumeTorrents w = Ret tt (set_log (log w ++ startMessages l')
                                       (set_nextTorrentKey k (set_torrents l' w)))) in R.
  simpl. rewrite R. simpl. exact (K' K).
Qed.

End Resuming.

Lemma resumeTorrents_keys_fresh_witness :
  keysFresh (nextTorrentKey (world_of (resumeTorrents legacyWorld)))
            (torrents (world_of (resumeTorrents legacyWorld))) /\
  Forall (fun s' => active s' = true -> keyOf s' <> None)
         (torrents (world_of (resumeTorrents legacyWorld))).
Proof.
  apply (resumeTorrents_keys_fresh legacyWorld).
  split; [simpl; lia|]. split.
  - intros [|[|[|i]]] s k Hi Hk; simpl in Hi; try discriminate Hi;
      injection Hi as <-; try discriminate Hk.
    injection Hk as <-. simpl. lia.
  - intros [|[|[|i]]] [|[|[|j]]] s t k Hi Hj Hs Ht; simpl in Hi, Hj;
      try discriminate Hi; try discriminate Hj;
      injection Hi as <-; injection Hj as <-;
      try discriminate Hs; try discriminate Ht; reflexivity.
Defined.

(** The legacy list: the first item gets key 4 and the download folder, the
    paused one stays without key, the third keeps key 3. *)
Example resumeTorrents_legacy :
  map (fun s => (Torrent.torrentKey s, Torrent.path s))
      (torrents (world_of (resumeTorrents legacyWorld)))
  = [(Some 4%nat, Some "/downloads"); (None, None); (Some 3%nat, Some "/films")] /\
  nextTorrentKey (world_of (resumeTorrents legacyWorld)) = 5%nat /\
  List.length (log (world_of (resumeTorrents legacyWorld))) = 2%nat.
Proof. repeat split. Qed.

(** ** Completions, errors and the window focus *)

Section Events.

Variable host : Host.

(** One completion event, whether its handler returns or throws: the
    counter grows by the number of notifications shown, when the window is
    not focused. *)
Lemma torrentDone_badge id bytesReceived w :
  let w' := world_of (torrentDone host id bytesReceived w) in
  isFocused w' = isFocused w /\
  exists new,
    log w' = log w ++ new /\
    badge w' = if isFocused w then badge w
               else (badge w + Z.of_nat (List.length (notifications new)))%Z.
Proof.
  unfold torrentDone. simpl.
  destruct (getTorrentSummary host id w) as [[ts s]|] eqn:Hfound; simpl.
  - pose proof (getTorrentSummary_Some _ _ _ _ _ Hfound) as Hs.
    assert (Hs' : alter (Torrent.set_status Seeding) ts (torrents w) !! ts
                  = Some (Torrent.set_status Seeding s))
      by (now rewrite list_lookup_alter_eq, Hs).
    destruct (bytesReceived >? 0)%Z; simpl.
    + unfold deref. simpl.
      destruct (isFocused w) eqn:Fo; simpl; rewrite Hs'; simpl;
        unfold getTorrentPath; simpl;
        (destruct (Torrent.files s) as [files|]; simpl;
         [destruct (files !! 0%nat) as [file0|]; simpl;
          [destruct (Torrent.path s) as [dir|]; simpl|]|]);
        (split; [exact Fo|]);
        (eexists; split; [rewrite <- ?app_assoc; reflexivity | reflexivity]).
    + split; [reflexivity|]. exists [EUpdate]. split; [reflexivity|].
      destruct (isFocused w); simpl; lia.
  - split; [reflexivity|]. exists []. split; [now rewrite app_nil_r|].
    destruct (isFocused w); simpl; lia.
Qed.

Lemma notifications_app l1 l2 :
  notifications (l1 ++ l2) = notifications l1 ++ notifications l2.
Proof. apply List.filter_app. Qed.

Lemma completions_badge ds : forall w,
  isFocused (completions host ds w) = isFocused w /\
  exists new,
    log (completions host ds w) = log w ++ new /\
    badge (completions host ds w)
    = if isFocused w then badge w
      else (badge w + Z.of_nat (List.length (notifications new)))%Z.
Proof.
  induction ds as [|d ds IH]; intros w.
  - split; [reflexivity|]. exists []. split; [now rewrite app_nil_r|].
    destruct (isFocused w); simpl; lia.
  - simpl. destruct (torrentDone_badge (fst d) (snd d) w) as [F1 [new1 [L1 B1]]].
    destruct (IH (world_of (torrentDone host (fst d) (snd d) w))) as [F2 [new2 [L2 B2]]].
    split; [congruence|]. exists (new1 ++ new2). split.
    + unfold completions in *. rewrite L2, L1. now rewrite app_assoc.
    + unfold completions in *. rewrite B2, F1, B1.
      destruct (isFocused w); [reflexivity|].
      rewrite notifications_app, length_app. lia.
Qed.

(** X14: through any run of completion events, with handlers that return
    and handlers that throw, the unseen-completions counter of a window that
    is not focused grows by the number of notifications shown, and the
    counter of a focused window does not move. *)
Theorem badge_counts_notifications (ds : list (TorrentId * Z)) (w : World) :
  exists new,
    log (completions host ds w) = log w ++ new /\
    badge (completions host ds w)
    = if isFocused w then badge w
      else (badge w + Z.of_nat (List.length (notifications new)))%Z.
Proof. exact (proj2 (completions_badge ds w)). Qed.

(** X15: when the window gets the focus the counter is reset, and it stays
    at 0 through the completions that follow; losing the focus leaves the
    counter as it is. *)
Theorem focus_clears_badge (ds : list (TorrentId * Z)) (w : World) :
  badge (completions host ds (onFocus w)) = 0%Z /\
  badge (onBlur (completions host ds (onFocus w))) = 0%Z /\
  badge (onBlur w) = badge w.
Proof.
  destruct (completions_badge ds (onFocus w)) as [_ [new [_ B]]].
  simpl in B. repeat split; [exact B | exact B].
Qed.

(** X16: [torrentError] never throws.  It queues one error, the text of
    a duplicate-torrent message cut down to its first words; a known item
    is paused and keeps everything else, and no other item changes; for a
    key that is not known no item changes. *)
Theorem torrentError_reports_and_pauses (id : TorrentId) (message : string) (w : World) :
  exists w',
    torrentError host id message w = Ret tt w' /\
    errors w' = errors w ++ [if String.prefix "Cannot add duplicate torrent" message
                             then "Cannot add duplicate torrent" else message] /\
    match getTorrentSummary host id w with
    | Some (ts, s) =>
        torrents w' = <[ts := Torrent.set_status Paused s]> (torrents w) /\
        log w' = log w ++ [ESound ERROR; EUpdate; EUpdate]
    | None =>
        torrents w' = torrents w /\ log w' = log w ++ [ESound ERROR; EUpdate]
    end.
Proof.
  unfold torrentError. simpl. unfold getTorrentSummary at 1. simpl.
  fold (getTorrentSummary host id w).
  destruct (getTorrentSummary host id w) as [[ts s]|] eqn:Hfound; simpl.
  - eexists. split; [reflexivity|]. simpl. split; [reflexivity|].
    pose proof (getTorrentSummary_Some _ _ _ _ _ Hfound) as Hs. split.
    + now apply alter_as_insert.
    + now rewrite <- !app_assoc.
  - eexists. split; [reflexivity|]. simpl. split; [reflexivity|].
    split; [reflexivity|]. now rewrite <- !app_assoc.
Qed.

(** X17: an item paused by an error is started again when it is played:
    [openPlayer] tells the engine to start it and waits for the engine.  The
    summary sent still says paused. *)
Theorem play_after_error_restarts (id id' : TorrentId) (message : string)
    (index ts : nat) (s : Torrent.t) (w : World) :
  getTorrentSummary host id w = Some (ts, s) ->
  let w1 := world_of (torrentError host id message w) in
  getByKey host (torrents w1) id' = Some ts ->
  exists w2 s',
    openPlayer host id' (Some index) w1 = Ret tt w2 /\
    log w2 = log w1 ++ [ESound PLAY; EUpdate; EIpc (WtStartTorrenting s')] /\
    listener w2 = Some (OnEngineReady ts index) /\
    Torrent.status s' = Paused /\
    Torrent.playStatus s' = Some Requested.
Proof.
  intros Hfound w1 Hk.
  pose proof (getTorrentSummary_Some _ _ _ _ _ Hfound) as Hs.
  assert (T1 : torrents w1 !! ts = Some (Torrent.set_status Paused s)).
  { unfold w1, torrentError. simpl.
    assert (F : getTorrentSummary host id
                  (onError (if String.prefix "Cannot add duplicate torrent" message
                            then "Cannot add duplicate torrent" else message) w)
                = Some (ts, s)) by exact Hfound.
    rewrite F. simpl. now rewrite list_lookup_alter_eq, Hs. }
  assert (F1 : getTorrentSummary host id' w1 = Some (ts, Torrent.set_status Paused s)).
  { unfold getTorrentSummary. now rewrite Hk, T1. }
  destruct (openPlayer_paused host id' index ts w1 _ F1 eq_refl)
    as [w2 [s' [R [_ [L [Li [_ [P St]]]]]]]].
  exists w2, s'. repeat split; assumption.
Qed.

End Events.

Lemma play_after_error_restarts_witness :
  exists w2 s',
    openPlayer exampleHost (ByKey 1) (Some 1%nat)
      (world_of (torrentError exampleHost (ByHash "abc") "Disk full" torrentWorld))
    = Ret tt w2 /\
    log w2 = log (world_of (torrentError exampleHost (ByHash "abc") "Disk full" torrentWorld))
             ++ [ESound PLAY; EUpdate; EIpc (WtStartTorrenting s')] /\
    listener w2 = Some (OnEngineReady 0 1) /\
    Torrent.status s' = Paused /\
    Torrent.playStatus s' = Some Requested.
Proof.
  apply (play_after_error_restarts exampleHost (ByHash "abc") (ByKey 1) "Disk full"
           1%nat 0%nat exampleTorrent torrentWorld).
  - reflexivity.
  - reflexivity.
Defined.

(** ** The player page: play, pause and seek *)

Section PageCommands.

Lemma alternates_app l1 : forall paused l2,
  alternates paused (l1 ++ l2) = alternates paused l1 ≫= fun p => alternates p l2.
Proof.
  induction l1 as [|s l1 IH]; intros paused l2; [reflexivity|].
  destruct s; simpl; try apply IH; destruct paused; simpl; try reflexivity; apply IH.
Qed.

(** [castEchoes] reads a log in groups; a log that is read to its end can
    be followed by another. *)
Lemma castEchoes_app_len n : forall l1 l2,
  (List.length l1 <= n)%nat -> castEchoes l1 = true ->
  castEchoes (l1 ++ l2) = castEchoes l2.
Proof.
  induction n as [|n IH]; intros l1 l2 Hn H.
  - destruct l1; [reflexivity | simpl in Hn; lia].
  - destruct l1 as [|s l1]; [reflexivity|].
    destruct s; simpl in *; try discriminate H;
      try (apply IH; [lia | exact H]);
      (destruct l1 as [|s' l1]; [discriminate H|]);
      destruct s'; simpl in *; try discriminate H;
      (apply IH; [lia | exact H]).
Qed.

Lemma castEchoes_app l1 l2 :
  castEchoes l1 = true -> castEchoes l2 = true -> castEchoes (l1 ++ l2) = true.
Proof.
  intros H1 H2. rewrite (castEchoes_app_len (List.length l1)); [exact H2 | lia | exact H1].
Qed.

(** One command: what it sends, and what it leaves alone. *)
Lemma exec_step (pg : Page.t) (c : Command) :
  isCasting (Page.world (exec pg c)) = isCasting (Page.world pg) /\
  Page.url (exec pg c) = Page.url pg /\
  Page.dockProgress (exec pg c) = Page.dockProgress pg /\
  log (Page.world (exec pg c)) = log (Page.world pg) /\
  torrents (Page.world (exec pg c)) = torrents (Page.world pg) /\
  exists new,
    Page.signals (exec pg c) = Page.signals pg ++ new /\
    alternates (Page.isPaused pg) new = Some (Page.isPaused (exec pg c)) /\
    if isCasting (Page.world pg)
    then castEchoes new = true /\ Page.world (exec pg c) = Page.world pg
    else forallb (fun s => negb (isCastSignal s)) new = true.
Proof.
  destruct pg as [w paused url visible dock sigs].
  destruct c as [| | |time]; unfold exec, playPause, play, pause, jumpToTime; simpl;
    destruct (isCasting w) eqn:C; destruct paused;
    try destruct (String.eqb url "player"); try destruct visible; simpl;
    rewrite ?C; simpl; unfold isCasting in *; simpl in *; rewrite ?C;
    (repeat (split; [reflexivity|]));
    first [ exists []; split; [now rewrite app_nil_r|]; repeat split; reflexivity
          | eexists; split; [rewrite <- ?app_assoc; reflexivity|];
            repeat split; reflexivity ].
Qed.

Lemma execAll_steps (cs : list Command) : forall pg,
  isCasting (Page.world (execAll cs pg)) = isCasting (Page.world pg) /\
  log (Page.world (execAll cs pg)) = log (Page.world pg) /\
  torrents (Page.world (execAll cs pg)) = torrents (Page.world pg) /\
  exists new,
    Page.signals (execAll cs pg) = Page.signals pg ++ new /\
    alternates (Page.isPaused pg) new = Some (Page.isPaused (execAll cs pg)) /\
    if isCasting (Page.world pg)
    then castEchoes new = true /\ Page.world (execAll cs pg) = Page.world pg
    else forallb (fun s => negb (isCastSignal s)) new = true.
Proof.
  induction cs as [|c cs IH]; intros pg.
  - repeat split. exists []. rewrite app_nil_r. simpl.
    destruct (isCasting (Page.world pg)); repeat split.
  - simpl. destruct (exec_step pg c) as [C1 [_ [_ [L1 [T1 [new1 [S1 [A1 K1]]]]]]]].
    destruct (IH (exec pg c)) as [C2 [L2 [T2 [new2 [S2 [A2 K2]]]]]].
    unfold execAll in *. split; [congruence|]. split; [congruence|].
    split; [congruence|].
    exists (new1 ++ new2). split; [rewrite S2, S1; now rewrite app_assoc|].
    split; [rewrite alternates_app, A1; exact A2|].
    rewrite C1 in K2. destruct (isCasting (Page.world pg)).
    + destruct K1 as [E1 W1], K2 as [E2 W2]. split; [now apply castEchoes_app | congruence].
    + rewrite forallb_app, K1, K2. reflexivity.
Qed.

(** X18: through any run of play, pause, play/pause and seek commands the
    two player messages alternate: a play message is only sent from the
    paused state and a pause message only from the playing one, and the
    state after the run is the one the last message announced. *)
Theorem player_messages_alternate (cs : list Command) (pg : Page.t) :
  exists new,
    Page.signals (execAll cs pg) = Page.signals pg ++ new /\
    alternates (Page.isPaused pg) new = Some (Page.isPaused (execAll cs pg)).
Proof.
  destruct (execAll_steps cs pg) as [_ [_ [_ [new [S [A _]]]]]].
  exists new. split; assumption.
Qed.

(** X19: with local output the commands never call the cast module.  While
    casting, every play or pause message follows the cast call of the same
    kind, a seek only calls the cast module, and the world is not written
    (no seek target is left for the local player). *)
Theorem cast_calls_follow_location (cs : list Command) (pg : Page.t) :
  exists new,
    Page.signals (execAll cs pg) = Page.signals pg ++ new /\
    if isCasting (Page.world pg)
    then castEchoes new = true /\ Page.world (execAll cs pg) = Page.world pg
    else forallb (fun s => negb (isCastSignal s)) new = true.
Proof.
  destruct (execAll_steps cs pg) as [_ [_ [_ [new [S [_ K]]]]]].
  exists new. split; assumption.
Qed.

End PageCommands.

(** Play/pause twice on the player page, with a seek in between. *)
Example page_commands_example :
  Page.signals (execAll [CmdPlayPause; CmdPlay; CmdJump 30; CmdPlayPause] examplePage)
  = [OnPlayerPlay; OnPlayerPause] /\
  Playing.jumpToTime
    (playing (Page.world (execAll [CmdPlayPause; CmdPlay; CmdJump 30; CmdPlayPause]
                             examplePage)))
  = Some 30%Q.
Proof. split; reflexivity. Qed.

(** ** Progress reports *)

Section Progress.

Variable host : Host.

(** The loop of [torrentProgress] writes the progress of items and nothing
    else. *)
Lemma progress_loop (ps : list (TorrentId * list FileProgress.t)) (base : list Torrent.t) :
  forall w,
    Forall2 (fun s s' => set_progress None s' = set_progress None s) base (torrents w) ->
    let w' :=
      fold_left
        (fun w p =>
           match getTorrentSummary host (fst p) w with
           | None => w
           | Some found => update_torrent (fst found) (set_progress (Some (snd p))) w
           end) ps w in
    Forall2 (fun s s' => set_progress None s' = set_progress None s) base (torrents w') /\
    log w' = log w /\ playing w' = playing w /\ nextTorrentKey w' = nextTorrentKey w /\
    badge w' = badge w /\ errors w' = errors w.
Proof.
  induction ps as [|p ps IH]; intros w F; [now repeat split|].
  simpl. destruct (getTorrentSummary host (fst p) w) as [[ts s]|]; [|now apply IH].
  specialize (IH (update_torrent ts (set_progress (Some (snd p))) w)).
  simpl in IH. apply IH. apply Forall2_alter_r; [exact F|].
  intros x y _ _ R. rewrite <- R. reflexivity.
Qed.

(** X20: after a progress report the dock never shows a progress of 1: it
    shows -1, or, with active torrents, the progress reported.  The report
    changes no field of an item but its progress, adds and removes no item,
    and asks for one redraw. *)
Theorem torrentProgress_dock_and_frame (progressInfo : ProgressInfo.t) (pg : Page.t) :
  let pg' := torrentProgress host progressInfo pg in
  ~ (Page.dockProgress pg' == 1)%Q /\
  (Page.dockProgress pg' = (-1)%Q \/
   (ProgressInfo.hasActiveTorrents progressInfo = true /\
    Page.dockProgress pg' = ProgressInfo.progress progressInfo)) /\
  Forall2 (fun s s' => set_progress None s' = set_progress None s)
          (torrents (Page.world pg)) (torrents (Page.world pg')) /\
  log (Page.world pg') = log (Page.world pg) ++ [EUpdate] /\
  playing (Page.world pg') = playing (Page.world pg) /\
  Page.signals pg' = Page.signals pg /\
  Page.isPaused pg' = Page.isPaused pg.
Proof.
  unfold torrentProgress. cbv zeta.
  destruct (progress_loop (ProgressInfo.torrents progressInfo) (torrents (Page.world pg))
              (Page.world pg)) as [F [L [P _]]].
  { apply Forall2_same_length_lookup. split; [reflexivity|].
    intros i x y Hx Hy. congruence. }
  simpl in *. split; [|split].
  - destruct (ProgressInfo.hasActiveTorrents progressInfo); simpl.
    + destruct (Qeqb (ProgressInfo.progress progressInfo) 1) eqn:E.
      * intros H. discriminate H.
      * now apply Qeqb_false.
    + intros H. discriminate H.
  - destruct (ProgressInfo.hasActiveTorrents progressInfo); simpl.
    + destruct (Qeqb (ProgressInfo.progress progressInfo) 1); [now left | right; now split].
    + now left.
  - split; [exact F|]. split; [now rewrite L|]. split; [exact P|]. now split.
Qed.

End Progress.

(** ** The default file, among videos of the same size *)

Section DefaultFile.

Variable host : Host.

(** The reduction keeps the last of the largest elements: every element
    after it is smaller. *)
Lemma largest_after (rest : list (nat * File.t)) : forall first,
  exists l1 l2,
    first :: rest = l1 ++ largest first rest :: l2 /\
    Forall (fun x => (File.length (snd x) < File.length (snd (largest first rest)))%Z) l2.
Proof.
  unfold largest. induction rest as [|b rest IH]; intros a.
  - exists [], []. split; [reflexivity | constructor].
  - simpl fold_left.
    destruct (File.length (snd a) >? File.length (snd b))%Z eqn:E.
    + destruct (IH a) as [l1 [l2 [D S]]].
      remember (fold_left _ rest a) as r eqn:Hr. destruct l1 as [|x l1].
      * simpl in D. injection D as D1 D2. exists [], (b :: rest). split.
        -- simpl. now rewrite <- D1.
        -- constructor.
           ++ apply Z.gtb_lt in E. rewrite <- D1. lia.
           ++ rewrite D2. exact S.
      * simpl in D. injection D as D1 D2. exists (a :: b :: l1), l2. split.
        -- simpl. now rewrite D2.
        -- exact S.
    + destruct (IH b) as [l1 [l2 [D S]]]. exists (a :: l1), l2. split.
      * simpl. now rewrite D.
      * exact S.
Qed.

(** What a filter keeps of a list with positions, before a given element. *)
Lemma filter_indexedFrom_before (p : nat * File.t -> bool) (files : list File.t) :
  forall i l1 k f l2,
    List.filter p (indexedFrom i files) = l1 ++ (k, f) :: l2 ->
    forall j g, In (j, g) l1 -> (j < k)%nat.
Proof.
  induction files as [|f0 files IH]; intros i l1 k f l2 E j g Hj.
  - destruct l1; discriminate E.
  - simpl in E. destruct (p (i, f0)).
    + destruct l1 as [|x l1]; [destruct Hj|].
      simpl in E. injection E as <- E. destruct Hj as [Hj | Hj].
      * injection Hj as <- <-.
        assert (In (k, f) (List.filter p (indexedFrom (S i) files)))
          by (rewrite E; apply in_elt).
        apply filter_In in H as [H _]. apply indexedFrom_In in H as [H _]. lia.
      * exact (IH _ _ _ _ _ E j g Hj).
    + exact (IH _ _ _ _ _ E j g Hj).
Qed.

(** X21: among the video files, [pickFileToPlay] prefers the later of two
    of the same size: every video file after the one it returns is
    smaller. *)
Theorem pickFileToPlay_later_videos_smaller (files : list File.t) (i j : nat)
    (f g : File.t) :
  pickFileToPlay host files = Some i ->
  files !! i = Some f ->
  files !! j = Some g ->
  isVideo host g = true ->
  (i < j)%nat ->
  (File.length g < File.length f)%Z.
Proof.
  unfold pickFileToPlay, indexed. intros P Hi Hj Vg Lt.
  assert (Ig : In (j, g)
                  (List.filter (fun x => isVideo host (snd x)) (indexedFrom 0 files))).
  { apply filter_In. split; [exact (In_indexedFrom 0 files j g Hj) | exact Vg]. }
  destruct (List.filter (fun x => isVideo host (snd x)) (indexedFrom 0 files))
    as [|first rest] eqn:EV; [destruct Ig|].
  injection P as P.
  destruct (largest_after rest first) as [l1 [l2 [D S]]].
  destruct (largest first rest) as [k h] eqn:R. simpl in P. subst k.
  assert (Ih : In (i, h) (indexedFrom 0 files)).
  { assert (In (i, h) (List.filter (fun x => isVideo host (snd x)) (indexedFrom 0 files)))
      by (rewrite EV, D; apply in_elt).
    now apply filter_In in H as [H _]. }
  apply indexedFrom_In in Ih as [_ Ih]. rewrite Nat.sub_0_r, Hi in Ih.
  injection Ih as <-.
  rewrite D in Ig. apply in_app_or in Ig as [Ig | [Ig | Ig]].
  - rewrite D in EV. pose proof (filter_indexedFrom_before _ _ _ _ _ _ _ EV j g Ig). lia.
  - injection Ig as Ig _. lia.
  - rewrite List.Forall_forall in S. exact (S _ Ig).
Qed.

End DefaultFile.

Lemma pickFileToPlay_later_videos_smaller_witness :
  (File.length (File.mk "b.mp4" "b.mp4" 5 None None false)
   < File.length (File.mk "c.mp4" "c.mp4" 9 None None false))%Z.
Proof.
  apply (pickFileToPlay_later_videos_smaller exampleHost
           [File.mk "c.mp4" "c.mp4" 9 None None false;
            File.mk "a.mp3" "a.mp3" 20 None None false;
            File.mk "b.mp4" "b.mp4" 5 None None false] 0%nat 2%nat).
  - reflexivity.
  - reflexivity.
  - reflexivity.
  - reflexivity.
  - lia.
Defined.

(** Two videos of the same size: the second is the default. *)
Example pickFileToPlay_tie :
  pickFileToPlay exampleHost
    [File.mk "a.mp4" "a.mp4" 7 None None false;
     File.mk "b.mp4" "b.mp4" 7 None None false;
     File.mk "c.mp4" "c.mp4" 3 None None false]
  = Some 1%nat.
Proof. reflexivity. Qed.

(** ** The subtitles menu *)

Section Menu.

Variable host : Host.

Lemma addTracks_showMenu autoSelect new : forall i s,
  Subtitles.showMenu (addTracks host autoSelect i new s) = Subtitles.showMenu s.
Proof.
  induction new as [|t new IH]; intros i s; [reflexivity|].
  simpl. destruct (existsb _ _); [apply IH|].
  rewrite IH. now destruct (autoSelect && _).
Qed.

Lemma addSubtitles_showMenu files autoSelect w :
  Subtitles.showMenu (Playing.subtitles (playing (addSubtitles host files autoSelect w)))
  = Subtitles.showMenu (Playing.subtitles (playing w)).
Proof.
  destruct (addSubtitles_cases host files autoSelect w) as [-> | [[-> _] | [tracks [_ ->]]]].
  - reflexivity.
  - now rewrite parallel_playing.
  - simpl. apply addTracks_showMenu.
Qed.

(** X22: the menu flag is written by the toggle alone: toggling twice
    gives the state back, and no ingest, by the user or by discovery,
    opens or closes the menu.  A track selected by hand stays selected
    through discovery, and selecting changes no track. *)
Theorem menu_and_selection_by_hand (files : list string) (autoSelect : bool)
    (ix : option nat) (w : World) :
  toggleSubtitlesMenu (toggleSubtitlesMenu w) = w /\
  Subtitles.showMenu (Playing.subtitles (playing (addSubtitles host files autoSelect w)))
  = Subtitles.showMenu (Playing.subtitles (playing w)) /\
  Subtitles.showMenu (Playing.subtitles (playing (world_of (checkForSubtitles host w))))
  = Subtitles.showMenu (Playing.subtitles (playing w)) /\
  Subtitles.selectedIndex
    (Playing.subtitles (playing (world_of (checkForSubtitles host (selectSubtitle ix w)))))
  = ix /\
  Subtitles.tracks (Playing.subtitles (playing (selectSubtitle ix w)))
  = Subtitles.tracks (Playing.subtitles (playing w)).
Proof.
  split; [|split; [|split; [|split]]].
  - destruct w as [[h fi ty lo ra vo sv jt [tr se me]] ? ? ? ? ? ? ? ? ? ?].
    unfold toggleSubtitlesMenu. simpl. now rewrite negb_involutive.
  - apply addSubtitles_showMenu.
  - apply (stable_checkForSubtitles host
             (fun w w' => Subtitles.showMenu (Playing.subtitles (playing w'))
                          = Subtitles.showMenu (Playing.subtitles (playing w)))).
    + reflexivity.
    + intros a b c H1 H2. now rewrite H2.
    + intros fs w0. apply addSubtitles_showMenu.
  - transitivity (Subtitles.selectedIndex (Playing.subtitles (playing (selectSubtitle ix w))));
      [|reflexivity].
    apply (stable_checkForSubtitles host
             (fun w w' => Subtitles.selectedIndex (Playing.subtitles (playing w'))
                          = Subtitles.selectedIndex (Playing.subtitles (playing w)))).
    + reflexivity.
    + intros a b c H1 H2. now rewrite H2.
    + intros fs w0. apply addSubtitles_no_select.
  - reflexivity.
Qed.

End Menu.
